(** * Sigma-clipped average combination of an image stack

    A verification development for the image-combination notebook of the
    CCD reduction guide.  The notebook combines a stack [bits] of images,
    one image per row, with the cells

<<
      median = np.median(bits, axis=0)
      mad_sigma = mad_std(bits, axis=0)
      exclude = (bits - median) / mad_sigma > 10
      original_values = bits[exclude]
      bits[exclude] = np.nan
      clip_combine = np.nanmean(bits, axis=0)
      bits[exclude] = original_values
>>

    Numbers.  An array element is a [float]: a finite number, one of the two
    infinities, or NaN.  Finite numbers are exact rationals, so rounding and
    overflow of the 64-bit format are not modelled; what is modelled of
    IEEE-754 is what the cells rely on: a quotient with a zero divisor is an
    infinity or NaN, every comparison with NaN is false, and NaN is the
    value that [np.nanmean] skips.  The sign of zero is not modelled: the only
    zero divisor of the program is a scale, which is [+0]. *)

From Stdlib Require Import List Bool Arith Lia ZArith QArith Qabs Lqa.
From Stdlib Require Import Permutation Sorted.
From Stdlib Require String.
Import ListNotations.
Import String.StringSyntax.
Delimit Scope string_scope with string.

Set Implicit Arguments.

(** ** Floating-point values *)

Inductive float : Type :=
| Fin (q : Q)
| PInf
| NInf
| NaN.

Module Float.

Definition Qlt_bool (a b : Q) : bool := negb (Qle_bool b a).

Definition is_nan (x : float) : bool :=
  match x with NaN => true | _ => false end.

Definition is_finite (x : float) : bool :=
  match x with Fin _ => true | _ => false end.

(** Numeric identity of two values: the same rational, the same infinity,
    or NaN on both sides. *)
Definition feq (x y : float) : Prop :=
  match x, y with
  | Fin a, Fin b => a == b
  | PInf, PInf => True
  | NInf, NInf => True
  | NaN, NaN => True
  | _, _ => False
  end.

Definition fadd (x y : float) : float :=
  match x, y with
  | NaN, _ | _, NaN => NaN
  | Fin a, Fin b => Fin (a + b)
  | PInf, NInf | NInf, PInf => NaN
  | PInf, _ | _, PInf => PInf
  | NInf, _ | _, NInf => NInf
  end.

Definition fopp (x : float) : float :=
  match x with
  | Fin a => Fin (- a)
  | PInf => NInf
  | NInf => PInf
  | NaN => NaN
  end.

Definition fsub (x y : float) : float :=
  match x, y with
  | NaN, _ | _, NaN => NaN
  | Fin a, Fin b => Fin (a - b)
  | PInf, PInf | NInf, NInf => NaN
  | PInf, _ | _, NInf => PInf
  | NInf, _ | _, PInf => NInf
  end.

Definition fabs (x : float) : float :=
  match x with
  | Fin a => Fin (Qabs a)
  | PInf | NInf => PInf
  | NaN => NaN
  end.

Definition fmul (x y : float) : float :=
  match x, y with
  | NaN, _ | _, NaN => NaN
  | Fin a, Fin b => Fin (a * b)
  | Fin a, inf | inf, Fin a =>
      match 0 ?= a with
      | Eq => NaN
      | Lt => inf
      | Gt => fopp inf
      end
  | PInf, PInf | NInf, NInf => PInf
  | PInf, NInf | NInf, PInf => NInf
  end.

(** Division.  A finite number over zero is an infinity of the sign of the
    dividend, and zero over zero is NaN. *)
Definition fdiv (x y : float) : float :=
  match x, y with
  | NaN, _ | _, NaN => NaN
  | Fin a, Fin b =>
      if Qeq_bool b 0 then
        match 0 ?= a with
        | Eq => NaN
        | Lt => PInf
        | Gt => NInf
        end
      else Fin (a / b)
  | Fin _, _ => Fin 0
  | inf, Fin b => if Qlt_bool b 0 then fopp inf else inf
  | _, _ => NaN
  end.

(** [x > y]; false as soon as one side is NaN. *)
Definition fgtb (x y : float) : bool :=
  match x, y with
  | NaN, _ | _, NaN => false
  | Fin a, Fin b => Qlt_bool b a
  | PInf, PInf => false
  | PInf, _ => true
  | _, PInf => false
  | NInf, _ => false
  | _, NInf => true
  end.

(** [x <= y]; false as soon as one side is NaN. *)
Definition fleb (x y : float) : bool :=
  match x, y with
  | NaN, _ | _, NaN => false
  | Fin a, Fin b => Qle_bool a b
  | NInf, _ => true
  | _, PInf => true
  | _, _ => false
  end.

End Float.

Import Float.

(** ** The library functions the cells call

    [np.mean], [np.median], [np.nanmean] and [np.abs] of numpy and [mad_std]
    of astropy, on one line of samples (the reduction along [axis=0] applies
    them to every column, see [axis0] below). *)

Fixpoint fsum (l : list float) : float :=
  match l with
  | [] => Fin 0
  | x :: t => fadd x (fsum t)
  end.

Definition of_nat (n : nat) : float := Fin (inject_Z (Z.of_nat n)).

(** [np.mean]: the sum over the count; the mean of no value is [0/0]. *)
Definition np_mean (l : list float) : float :=
  fdiv (fsum l) (of_nat (length l)).

Fixpoint insert (x : float) (l : list float) : list float :=
  match l with
  | [] => [x]
  | y :: t => if fleb x y then x :: l else y :: insert x t
  end.

Fixpoint sort (l : list float) : list float :=
  match l with
  | [] => []
  | x :: t => insert x (sort t)
  end.

(** [np.median]: NaN when a sample is NaN; otherwise the mean of the middle
    element of the sorted samples (odd count) or of the two middle elements
    (even count).  As in numpy the middle is taken as a slice and handed to
    [np.mean], so that the median of no sample is the mean of no value. *)
Definition np_median (a : list float) : float :=
  if existsb is_nan a then NaN
  else
    let part := sort a in
    let index := Nat.div (length part) 2 in
    if Nat.odd (length part)
    then np_mean (firstn 1 (skipn index part))
    else np_mean (firstn 2 (skipn (index - 1) part)).

(** [np.nanmean]: NaN entries are replaced by zero in the sum and left out
    of the count. *)
Definition replace_nan (l : list float) : list float :=
  map (fun x => if is_nan x then Fin 0 else x) l.

Definition count_valid (l : list float) : nat :=
  length (filter (fun x => negb (is_nan x)) l).

Definition np_nanmean (l : list float) : float :=
  fdiv (fsum (replace_nan l)) (of_nat (count_valid l)).

(** The factor that turns the median absolute deviation into an estimate of
    the standard deviation.  [mad_std] belongs to astropy; the notebook's
    text gives the factor as 1.4826.  Only its sign matters below. *)
Definition mad_factor : Q := 14826 # 10000.

Definition median_absolute_deviation (data : list float) : float :=
  let data_median := np_median data in
  np_median (map (fun x => fabs (fsub x data_median)) data).

Definition mad_std (data : list float) : float :=
  fmul (median_absolute_deviation data) (Fin mad_factor).

(** ** Two-dimensional arrays

    The stack [bits] has one image per row; [width] is the number of pixels
    of an image, which a numpy array keeps in its shape also when it has no
    row. *)

Record ndarray : Type := mk_ndarray {
  width : nat;
  rows : list (list float)
}.

(** All images have the shape of the stack. *)
Definition well_shaped (a : ndarray) : Prop :=
  Forall (fun r => length r = width a) (rows a).

(** All samples are finite numbers. *)
Definition all_finite (a : ndarray) : Prop :=
  Forall (Forall (fun x => is_finite x = true)) (rows a).

Definition column (j : nat) (rs : list (list float)) : list float :=
  map (fun r => nth j r NaN) rs.

(** Reduction along [axis=0]: one value per pixel. *)
Definition axis0 (f : list float -> float) (a : ndarray) : list float :=
  map (fun j => f (column j (rows a))) (seq 0 (width a)).

(** ** The cells *)

(** One row of [(bits - median) / mad_sigma > clip_sigma]; [median] and
    [mad_sigma] are broadcast along the rows. *)
Fixpoint exclude_row (clip_sigma : Q) (row median mad_sigma : list float)
  : list bool :=
  match row, median, mad_sigma with
  | x :: row', m :: median', s :: mad_sigma' =>
      fgtb (fdiv (fsub x m) s) (Fin clip_sigma)
      :: exclude_row clip_sigma row' median' mad_sigma'
  | _, _, _ => []
  end.

Definition exclude_at (clip_sigma : Q) (bits : list (list float))
  (median mad_sigma : list float) : list (list bool) :=
  map (fun row => exclude_row clip_sigma row median mad_sigma) bits.

(** [bits[exclude]]: the selected entries, row after row. *)
Fixpoint getitem_row (row : list float) (mask : list bool) : list float :=
  match row, mask with
  | x :: row', b :: mask' =>
      if b then x :: getitem_row row' mask' else getitem_row row' mask'
  | _, _ => []
  end.

Fixpoint getitem (bits : list (list float)) (mask : list (list bool))
  : list float :=
  match bits, mask with
  | row :: bits', m :: mask' => getitem_row row m ++ getitem bits' mask'
  | _, _ => []
  end.

(** [bits[exclude] = v] for a scalar [v]. *)
Fixpoint setitem_scalar_row (row : list float) (mask : list bool) (v : float)
  : list float :=
  match row, mask with
  | x :: row', b :: mask' =>
      (if b then v else x) :: setitem_scalar_row row' mask' v
  | _, _ => row
  end.

Fixpoint setitem_scalar (bits : list (list float)) (mask : list (list bool))
  (v : float) : list (list float) :=
  match bits, mask with
  | row :: bits', m :: mask' =>
      setitem_scalar_row row m v :: setitem_scalar bits' mask' v
  | _, _ => bits
  end.

(** [bits[exclude] = values] for a one-dimensional array [values]: the
    selected entries take the values in order.  The second component is what
    is left of [values]. *)
Fixpoint setitem_row (row : list float) (mask : list bool)
  (values : list float) : list float * list float :=
  match row, mask with
  | x :: row', b :: mask' =>
      if b then
        match values with
        | v :: values' =>
            let (r, rest) := setitem_row row' mask' values' in (v :: r, rest)
        | [] =>
            let (r, rest) := setitem_row row' mask' [] in (x :: r, rest)
        end
      else
        let (r, rest) := setitem_row row' mask' values in (x :: r, rest)
  | _, _ => (row, values)
  end.

Fixpoint setitem (bits : list (list float)) (mask : list (list bool))
  (values : list float) : list (list float) :=
  match bits, mask with
  | row :: bits', m :: mask' =>
      let (r, rest) := setitem_row row m values in
      r :: setitem bits' mask' rest
  | _, _ => bits
  end.

(** The combined image as a function of the stack: the value the name
    [clip_combine] is bound to.  The notebook fixes the threshold at 10; it
    is a parameter here, and [clip_combine] is the notebook's instance. *)
Definition median_of (a : ndarray) : list float := axis0 np_median a.

Definition mad_sigma_of (a : ndarray) : list float := axis0 mad_std a.

Definition exclude_of (clip_sigma : Q) (a : ndarray) : list (list bool) :=
  exclude_at clip_sigma (rows a) (median_of a) (mad_sigma_of a).

Definition clip_combine_at (clip_sigma : Q) (a : ndarray) : list float :=
  let exclude := exclude_of clip_sigma a in
  axis0 np_nanmean (mk_ndarray (width a) (setitem_scalar (rows a) exclude NaN)).

Definition clip_sigma_default : Q := 10.

Definition exclude (a : ndarray) : list (list bool) :=
  exclude_of clip_sigma_default a.

Definition clip_combine (a : ndarray) : list float :=
  clip_combine_at clip_sigma_default a.


(** ** Per-pixel view

    What the cells compute at one pixel, as a function of the samples of that
    pixel ([pixel_of_column] below proves that the array program computes
    exactly this at every pixel). *)

Definition rejected (clip_sigma : Q) (samples : list float) (x : float) : bool :=
  fgtb (fdiv (fsub x (np_median samples)) (mad_std samples)) (Fin clip_sigma).

Definition clipped (clip_sigma : Q) (samples : list float) : list float :=
  map (fun x => if rejected clip_sigma samples x then NaN else x) samples.

Definition clip_pixel (clip_sigma : Q) (samples : list float) : float :=
  np_nanmean (clipped clip_sigma samples).

(** The samples of a pixel that enter the average. *)
Definition survivors (clip_sigma : Q) (samples : list float) : list float :=
  filter (fun x => negb (rejected clip_sigma samples x)) samples.

(** The mask entries of pixel [j], one per image. *)
Definition mask_column (j : nat) (mask : list (list bool)) : list bool :=
  map (fun m => nth j m false) mask.

Definition get2 (A : Type) (rs : list (list A)) (i j : nat) : option A :=
  match nth_error rs i with
  | Some r => nth_error r j
  | None => None
  end.

(** ** The cells as a program on a store

    The names of the notebook are bound to arrays that live in a store; a cell
    reads and writes the store.  [np.median], [mad_std], [np.nanmean], the
    comparison and [bits[exclude]] allocate the array they return, and the
    two assignments [bits[exclude] = ...] write into the array of [bits].  A
    computation that raises has no resulting store. *)

Inductive object : Type :=
| Float2 (a : ndarray)
| Float1 (v : list float)
| Bool2 (m : list (list bool)).

Definition loc : Type := nat.

Definition heap : Type := list object.

Inductive exn : Type :=
| NameError
| TypeError.

Inductive result (A : Type) : Type :=
| Ok (a : A) (h : heap)
| Raise (e : exn).

Arguments Raise {A} e.

Definition M (A : Type) : Type := heap -> result A.

Definition ret (A : Type) (a : A) : M A := fun h => Ok a h.

Definition bind (A B : Type) (m : M A) (k : A -> M B) : M B :=
  fun h =>
    match m h with
    | Ok a h' => k a h'
    | Raise e => Raise e
    end.

Definition raise (A : Type) (e : exn) : M A := fun _ => Raise e.

Notation "x <- m ;; k" := (bind m (fun x => k))
  (at level 61, m at next level, right associativity).
Notation "m ;;; k" := (bind m (fun _ => k))
  (at level 61, right associativity).

Definition alloc (o : object) : M loc :=
  fun h => Ok (length h) (h ++ [o]).

Definition load (l : loc) : M object :=
  fun h =>
    match nth_error h l with
    | Some o => Ok o h
    | None => Raise NameError
    end.

Fixpoint update (l : loc) (o : object) (h : heap) : heap :=
  match h, l with
  | [], _ => []
  | _ :: h', O => o :: h'
  | o' :: h', S l' => o' :: update l' o h'
  end.

Definition store (l : loc) (o : object) : M unit :=
  fun h =>
    match nth_error h l with
    | Some _ => Ok tt (update l o h)
    | None => Raise NameError
    end.

Definition load_float2 (l : loc) : M ndarray :=
  o <- load l ;;
  match o with Float2 a => ret a | _ => raise _ TypeError end.

Definition load_float1 (l : loc) : M (list float) :=
  o <- load l ;;
  match o with Float1 v => ret v | _ => raise _ TypeError end.

Definition load_bool2 (l : loc) : M (list (list bool)) :=
  o <- load l ;;
  match o with Bool2 m => ret m | _ => raise _ TypeError end.

(** [np.median(bits, axis=0)], [mad_std(bits, axis=0)] and
    [np.nanmean(bits, axis=0)]. *)
Definition py_axis0 (f : list float -> float) (bits : loc) : M loc :=
  a <- load_float2 bits ;;
  alloc (Float1 (axis0 f a)).

(** [(bits - median) / mad_sigma > clip_sigma]. *)
Definition py_exclude (clip_sigma : Q) (bits median mad_sigma : loc) : M loc :=
  a <- load_float2 bits ;;
  med <- load_float1 median ;;
  mad <- load_float1 mad_sigma ;;
  alloc (Bool2 (exclude_at clip_sigma (rows a) med mad)).

(** [bits[exclude]]: boolean indexing returns a copy. *)
Definition py_getitem (bits exclude : loc) : M loc :=
  a <- load_float2 bits ;;
  m <- load_bool2 exclude ;;
  alloc (Float1 (getitem (rows a) m)).

(** [bits[exclude] = v]: writes into the array of [bits]. *)
Definition py_setitem_scalar (bits exclude : loc) (v : float) : M unit :=
  a <- load_float2 bits ;;
  m <- load_bool2 exclude ;;
  store bits (Float2 (mk_ndarray (width a) (setitem_scalar (rows a) m v))).

(** [bits[exclude] = values]: writes into the array of [bits]. *)
Definition py_setitem (bits exclude values : loc) : M unit :=
  a <- load_float2 bits ;;
  m <- load_bool2 exclude ;;
  v <- load_float1 values ;;
  store bits (Float2 (mk_ndarray (width a) (setitem (rows a) m v))).

(** The cells, from [median] to the restoring assignment; the value is the
    array bound to [clip_combine]. *)
Definition cells (clip_sigma : Q) (bits : loc) : M loc :=
  median <- py_axis0 np_median bits ;;
  mad_sigma <- py_axis0 mad_std bits ;;
  exclude <- py_exclude clip_sigma bits median mad_sigma ;;
  original_values <- py_getitem bits exclude ;;
  py_setitem_scalar bits exclude NaN ;;;
  clip_combine <- py_axis0 np_nanmean bits ;;
  py_setitem bits exclude original_values ;;;
  ret clip_combine.

(** The arrays a location holds in a store. *)
Definition holds (h : heap) (l : loc) (o : object) : Prop :=
  nth_error h l = Some o.

(** ** The stack of the outlier test of the specification

    [n] constant images of [w] pixels with value [base]; pixel [j] of image
    [k] is set to [spike]. *)

Fixpoint set_nth (A : Type) (n : nat) (v : A) (l : list A) : list A :=
  match l, n with
  | [], _ => []
  | _ :: t, O => v :: t
  | x :: t, S n' => x :: set_nth n' v t
  end.

Definition constant_image (w : nat) (v : Q) : list float := repeat (Fin v) w.

Definition spiked_stack (n w : nat) (base spike : Q) (k j : nat) : ndarray :=
  mk_ndarray w
    (set_nth k (set_nth j (Fin spike) (constant_image w base))
       (repeat (constant_image w base) n)).

(** ** The rule of the specification

    The rejection rule and the scale in the words of the specification, to
    be compared with what the cells compute: a sample is rejected if
    [(sample - median) / mad_sigma > clip_sigma], where [mad_sigma] is
    [median(|sample - median|) * 1.4826]. *)

Definition spec_mad_sigma (samples : list float) : float :=
  let median := np_median samples in
  fmul (np_median (map (fun sample => fabs (fsub sample median)) samples))
       (Fin (14826 # 10000)).

Definition spec_rejected (clip_sigma : Q) (sample median mad_sigma : float)
  : bool :=
  fgtb (fdiv (fsub sample median) mad_sigma) (Fin clip_sigma).

(** ** Sorted samples *)

Definition fle (x y : float) : Prop := fleb x y = true.

Definition no_nan (l : list float) : Prop := existsb is_nan l = false.

Definition finite_samples (l : list float) : Prop :=
  Forall (fun x => is_finite x = true) l.

(** All samples have the value [x]. *)
Definition identical (x : float) (samples : list float) : Prop :=
  Forall (fun y => feq y x) samples.

(** A value that is not negative: a finite number at least zero, or plus
    infinity. *)
Definition fnonneg (x : float) : Prop :=
  match x with
  | Fin a => 0 <= a
  | PInf => True
  | _ => False
  end.

(** A positive value: a finite number above zero, or plus infinity. *)
Definition fpos (x : float) : Prop :=
  match x with
  | Fin a => 0 < a
  | PInf => True
  | _ => False
  end.

(** * Other cells of the notebooks *)

(** ** The plain average and the outliers put into one image

    [average = np.average(bits, axis=0)] and
    [bits[0, 10000:10050] = 2 * bias_level] of the combination notebook. *)

Definition average_of (a : ndarray) : list float := axis0 np_mean a.

(** [row[lo:hi] = v] for a scalar [v].  A slice is cut at the end of the row:
    no entry is added. *)
Fixpoint set_range (lo hi : nat) (v : float) (row : list float) {struct row}
  : list float :=
  match row with
  | [] => []
  | x :: t =>
      match lo, hi with
      | _, O => row
      | O, S hi' => v :: set_range O hi' v t
      | S lo', S hi' => x :: set_range lo' hi' v t
      end
  end.

(** [a + c] for a scalar [c], as in
    [bits = noise_rng.normal(...) + bias_level]. *)
Definition add_scalar (a : ndarray) (c : float) : ndarray :=
  mk_ndarray (width a) (map (map (fun x => fadd x c)) (rows a)).

(** One sample plus the finite level [c]. *)
Definition add_level (c : Q) (x : float) : float := fadd x (Fin c).

(** Column [j] is in the slice [lo:hi]. *)
Definition in_slice (lo hi j : nat) : bool := (lo <=? j)%nat && (j <? hi)%nat.

(** [bits[i, lo:hi] = v]; [None] stands for the [IndexError] of a row index
    that is out of bounds. *)
Definition setitem_row_slice (i lo hi : nat) (v : float) (a : ndarray)
  : option ndarray :=
  match nth_error (rows a) i with
  | Some row => Some (mk_ndarray (width a) (set_nth i (set_range lo hi v row) (rows a)))
  | None => None
  end.

(** ** Matching a dark to a flat (notebook on calibrating the flats) *)

Module Flats.

(** The header of an image, as the code uses it: [header[key]], [None] when
    the keyword is missing ([KeyError]). *)
Definition Header : Type := String.string -> option float.

Record CCDData : Type := mk_CCDData {
  header : Header;
  data : ndarray
}.

Inductive error : Type :=
| KeyError (key : String.string)
| ValueError
| NameError (name : String.string)
| RuntimeError_closest (closest_dark_exposure flat_exposure : float)
| RuntimeError_missing
| RuntimeError_more
| RuntimeError_unexpected (times : list float).

Inductive outcome (A : Type) : Type :=
| Return (a : A)
| Raises (e : error).

Arguments Raises {A} e.

(** [np.argmin] on one line: the index of the first minimum, and of the first
    NaN when there is one; [None] stands for the [ValueError] of an empty
    line. *)
Fixpoint argmin_from (min_ind : nat) (mp : float) (i : nat) (ip : list float)
  : nat :=
  match ip with
  | [] => min_ind
  | x :: t =>
      if is_nan mp then min_ind
      else if fleb mp x then argmin_from min_ind mp (S i) t
      else argmin_from i x (S i) t
  end.

Definition np_argmin (a : list float) : option nat :=
  match a with
  | [] => None
  | x :: t => Some (argmin_from O x 1 t)
  end.

(** [find_nearest_dark_exposure(image, dark_exposure_times, tolerance)].
    [dark_exposure_times] is the list the iterable is turned into;
    [tolerance] is [None] for Python's [None]; [a_flat] is the global
    variable of that name, which the error message reads, [None] when it is
    not defined. *)
Definition find_nearest_dark_exposure (a_flat : option CCDData)
  (image : CCDData) (dark_exposure_times : list float)
  (tolerance : option float) : outcome float :=
  let dark_exposures := dark_exposure_times in
  match header image "exptime"%string with
  | None => Raises (KeyError "exptime"%string)
  | Some exptime =>
      match np_argmin (map (fun d => fabs (fsub d exptime)) dark_exposures) with
      | None => Raises ValueError
      | Some idx =>
          let closest_dark_exposure := nth idx dark_exposures NaN in
          if match tolerance with
             | Some t => fgtb (fabs (fsub exptime closest_dark_exposure)) t
             | None => false
             end
          then
            match a_flat with
            | None => Raises (NameError "a_flat"%string)
            | Some flat =>
                match header flat "exptime"%string with
                | None => Raises (KeyError "exptime"%string)
                | Some e => Raises (RuntimeError_closest closest_dark_exposure e)
                end
            end
          else Return closest_dark_exposure
      end
  end.

(** The default of [tolerance]. *)
Definition tolerance_default : option float := Some (Fin (1 # 2)).

(** Equality of two numbers as Python compares them: NaN is equal to
    nothing. *)
Definition float_eqb (x y : float) : bool :=
  match x, y with
  | Fin a, Fin b => Qeq_bool a b
  | PInf, PInf => true
  | NInf, NInf => true
  | _, _ => false
  end.

(** A dictionary with numbers as keys, in the order of insertion. *)
Definition Dict (V : Type) : Type := list (float * V).

Fixpoint dict_set (V : Type) (d : Dict V) (k : float) (v : V) : Dict V :=
  match d with
  | [] => [(k, v)]
  | (k', v') :: t =>
      if float_eqb k' k then (k', v) :: t else (k', v') :: dict_set t k v
  end.

Fixpoint dict_get (V : Type) (d : Dict V) (k : float) : option V :=
  match d with
  | [] => None
  | (k', v') :: t => if float_eqb k' k then Some v' else dict_get t k
  end.

(** [{ccd.header['exptime']: ccd for ccd in ccds}]. *)
Fixpoint dict_of_ccds (d : Dict CCDData) (ccds : list CCDData)
  : outcome (Dict CCDData) :=
  match ccds with
  | [] => Return d
  | ccd :: t =>
      match header ccd "exptime"%string with
      | None => Raises (KeyError "exptime"%string)
      | Some k => dict_of_ccds (dict_set d k ccd) t
      end
  end.

Definition combined_darks_of (ccds : list CCDData) : outcome (Dict CCDData) :=
  dict_of_ccds [] ccds.

(** [set(h['exptime'] for h in headers)], as the list of the values in the
    order of the headers; a set is this list up to order and repetition. *)
Fixpoint exposure_times (headers : list Header) : outcome (list float) :=
  match headers with
  | [] => Return []
  | h :: t =>
      match h "exptime"%string with
      | None => Raises (KeyError "exptime"%string)
      | Some e =>
          match exposure_times t with
          | Return l => Return (e :: l)
          | Raises err => Raises err
          end
      end
  end.

Definition set_mem (x : float) (s : list float) : bool :=
  existsb (fun y => float_eqb y x) s.

(** [s - t] on sets. *)
Definition set_diff (s t : list float) : list float :=
  filter (fun x => negb (set_mem x t)) s.

(** The cell that checks the combined darks: [headers] are the headers of
    the combined darks of the collection, [n_dark_expected] their expected
    number (the literal 3 of the first example) and [expected] the expected
    exposure times.  The value is [actual_exposure_times]. *)
Definition check_combined_darks (n_dark_expected : nat) (expected : list float)
  (headers : list Header) : outcome (list float) :=
  let n_combined_dark := length headers in
  if (n_combined_dark <? n_dark_expected)%nat then Raises RuntimeError_missing
  else if (n_dark_expected <? n_combined_dark)%nat then Raises RuntimeError_more
  else
    match exposure_times headers with
    | Raises err => Raises err
    | Return actual =>
        match set_diff expected actual with
        | [] => Return actual
        | _ :: _ => Raises (RuntimeError_unexpected (set_diff actual expected))
        end
    end.

(** The last image of [ccds] whose exposure time is [k]. *)
Definition last_step (k : float) (acc : option CCDData) (ccd : CCDData)
  : option CCDData :=
  match header ccd "exptime"%string with
  | Some e => if float_eqb e k then Some ccd else acc
  | None => acc
  end.

Definition last_with_exposure (k : float) (ccds : list CCDData)
  : option CCDData :=
  fold_left (last_step k) ccds None.

(** No exposure time occurs twice. *)
Fixpoint distinct_times (l : list float) : Prop :=
  match l with
  | [] => True
  | x :: t => set_mem x t = false /\ distinct_times t
  end.

(** A number with its fraction in lowest terms. *)
Definition canon (x : float) : float :=
  match x with
  | Fin q => Fin (Qred q)
  | _ => x
  end.

End Flats.

(** * Properties *)

(** ** Comparisons and arithmetic of values *)

Lemma Qlt_bool_iff (a b : Q) : Qlt_bool a b = true <-> a < b.
Proof.
  unfold Qlt_bool. rewrite negb_true_iff.
  split; intro H.
  - apply Qnot_le_lt. intro Hle. apply Qle_bool_iff in Hle. congruence.
  - destruct (Qle_bool b a) eqn:E; [|reflexivity].
    apply Qle_bool_iff in E. lra.
Qed.

Lemma Qlt_bool_false (a b : Q) : Qlt_bool a b = false <-> b <= a.
Proof.
  unfold Qlt_bool. rewrite negb_false_iff. apply Qle_bool_iff.
Qed.

Lemma Qeq_bool_false (a b : Q) : Qeq_bool a b = false <-> ~ a == b.
Proof.
  split; intro H.
  - intro E. apply Qeq_bool_iff in E. congruence.
  - destruct (Qeq_bool a b) eqn:E; [|reflexivity].
    apply Qeq_bool_iff in E. contradiction.
Qed.

Lemma Qcompare_zero_cases (a : Q) :
  ((0 ?= a) = Eq /\ a == 0) \/ ((0 ?= a) = Lt /\ 0 < a) \/ ((0 ?= a) = Gt /\ a < 0).
Proof.
  destruct (0 ?= a) eqn:E.
  - left. split; [reflexivity|]. apply Qeq_alt in E. lra.
  - right; left. split; [reflexivity|]. apply Qlt_alt in E. exact E.
  - right; right. split; [reflexivity|]. apply Qgt_alt in E. exact E.
Qed.

(** Destructs the rational tests met in the operations on values. *)
Ltac qcases :=
  repeat match goal with
  | H : Qlt_bool _ _ = true |- _ => apply Qlt_bool_iff in H
  | H : Qlt_bool _ _ = false |- _ => apply Qlt_bool_false in H
  | H : Qle_bool _ _ = true |- _ => apply Qle_bool_iff in H
  | H : Qeq_bool _ _ = true |- _ => apply Qeq_bool_iff in H
  | H : Qeq_bool _ _ = false |- _ => apply Qeq_bool_false in H
  | |- context [Qeq_bool ?a ?b] => destruct (Qeq_bool a b) eqn:?
  | |- context [Qlt_bool ?a ?b] => destruct (Qlt_bool a b) eqn:?
  | |- context [Qle_bool ?a ?b] => destruct (Qle_bool a b) eqn:?
  | |- context [0 ?= ?a] =>
      destruct (Qcompare_zero_cases a) as [[-> ?]|[[-> ?]|[-> ?]]]
  end.

Lemma Qle_bool_false (a b : Q) : Qle_bool a b = false -> b < a.
Proof.
  intro H. apply Qnot_le_lt. intro Hle. apply Qle_bool_iff in Hle. congruence.
Qed.

Lemma feq_refl (x : float) : feq x x.
Proof. destruct x; simpl; auto. reflexivity. Qed.

Lemma feq_sym (x y : float) : feq x y -> feq y x.
Proof. destruct x, y; simpl; auto. intro H. symmetry. exact H. Qed.

Lemma feq_trans (x y z : float) : feq x y -> feq y z -> feq x z.
Proof.
  destruct x, y, z; simpl; auto; try contradiction.
  intros H1 H2. rewrite H1. exact H2.
Qed.

Lemma fle_refl (x : float) : is_nan x = false -> fle x x.
Proof.
  unfold fle. destruct x; simpl; try congruence. intros _.
  apply Qle_bool_iff. lra.
Qed.

Lemma fle_trans (x y z : float) : fle x y -> fle y z -> fle x z.
Proof.
  unfold fle. destruct x, y, z; simpl; try congruence.
  intros H1 H2. apply Qle_bool_iff in H1, H2. apply Qle_bool_iff. lra.
Qed.

Lemma fle_total (x y : float) :
  is_nan x = false -> is_nan y = false -> fleb x y = false -> fle y x.
Proof.
  unfold fle. destruct x, y; simpl; try congruence.
  intros _ _ H. apply Qle_bool_false in H. apply Qle_bool_iff. lra.
Qed.

Lemma fle_not_nan (x y : float) : fle x y -> is_nan x = false /\ is_nan y = false.
Proof. unfold fle. destruct x, y; simpl; intro H; split; congruence. Qed.

(** ** Sorting *)

Lemma insert_perm (x : float) (l : list float) : Permutation (x :: l) (insert x l).
Proof.
  induction l as [|y t IH]; simpl.
  - apply Permutation_refl.
  - destruct (fleb x y).
    + apply Permutation_refl.
    + apply perm_trans with (y :: x :: t).
      * apply perm_swap.
      * apply perm_skip. exact IH.
Qed.

Lemma sort_perm (l : list float) : Permutation l (sort l).
Proof.
  induction l as [|x t IH]; simpl.
  - apply perm_nil.
  - apply perm_trans with (x :: sort t).
    + apply perm_skip. exact IH.
    + apply insert_perm.
Qed.

Lemma sort_length (l : list float) : length (sort l) = length l.
Proof. symmetry. apply Permutation_length, sort_perm. Qed.

Lemma no_nan_cons (x : float) (l : list float) :
  no_nan (x :: l) <-> is_nan x = false /\ no_nan l.
Proof. unfold no_nan. simpl. apply orb_false_iff. Qed.

Lemma no_nan_In (l : list float) (x : float) :
  no_nan l -> In x l -> is_nan x = false.
Proof.
  unfold no_nan. intros H Hin.
  destruct (is_nan x) eqn:E; [|reflexivity].
  assert (existsb is_nan l = true) by (apply existsb_exists; eauto).
  congruence.
Qed.

Lemma no_nan_Forall (l : list float) :
  no_nan l <-> Forall (fun x => is_nan x = false) l.
Proof.
  induction l as [|x t IH].
  - split; [constructor | reflexivity].
  - rewrite no_nan_cons, IH. split.
    + intros [H1 H2]. constructor; assumption.
    + intro H. inversion H. auto.
Qed.

Lemma no_nan_perm (l l' : list float) : Permutation l l' -> no_nan l -> no_nan l'.
Proof.
  intros P H. apply no_nan_Forall. apply no_nan_Forall in H.
  eapply Permutation_Forall; eassumption.
Qed.

Lemma insert_sorted (x : float) (l : list float) :
  is_nan x = false -> no_nan l ->
  StronglySorted fle l -> StronglySorted fle (insert x l).
Proof.
  intros Hx Hl Hs. induction Hs as [|y t Hs IH Hy]; simpl.
  - constructor; constructor.
  - apply no_nan_cons in Hl. destruct Hl as [Hyn Ht].
    destruct (fleb x y) eqn:E.
    + constructor.
      * constructor; assumption.
      * constructor; [exact E|].
        eapply Forall_impl; [|exact Hy].
        intros z Hz. eapply fle_trans; eassumption.
    + constructor.
      * apply IH. exact Ht.
      * eapply Permutation_Forall; [apply insert_perm|].
        constructor; [|exact Hy].
        apply fle_total; assumption.
Qed.

Lemma sort_sorted (l : list float) : no_nan l -> StronglySorted fle (sort l).
Proof.
  induction l as [|x t IH]; simpl; intro H.
  - constructor.
  - apply no_nan_cons in H. destruct H as [Hx Ht].
    apply insert_sorted; auto.
    eapply no_nan_perm; [apply sort_perm | exact Ht].
Qed.

Lemma sorted_nth_le (l : list float) (i j : nat) (d : float) :
  StronglySorted fle l -> no_nan l -> (i <= j < length l)%nat ->
  fle (nth i l d) (nth j l d).
Proof.
  intros Hs. revert i j. induction Hs as [|y t Hs IH Hy]; intros i j Hn [Hij Hj].
  - simpl in Hj. lia.
  - apply no_nan_cons in Hn. destruct Hn as [Hyn Ht].
    destruct i as [|i], j as [|j]; simpl in *.
    + apply fle_refl. exact Hyn.
    + rewrite Forall_forall in Hy. apply Hy. apply nth_In. lia.
    + lia.
    + apply IH; [exact Ht | lia].
Qed.

(** ** The mean and the median *)

Lemma slice1 (A : Type) (l : list A) (k : nat) (d : A) :
  (k < length l)%nat -> firstn 1 (skipn k l) = [nth k l d].
Proof.
  revert k. induction l as [|x t IH]; intros k Hk; simpl in Hk; [lia|].
  destruct k as [|k]; simpl.
  - reflexivity.
  - apply IH. lia.
Qed.

Lemma slice2 (A : Type) (l : list A) (k : nat) (d : A) :
  (S k < length l)%nat -> firstn 2 (skipn k l) = [nth k l d; nth (S k) l d].
Proof.
  revert k. induction l as [|x t IH]; intros k Hk; simpl in Hk; [lia|].
  destruct k as [|k].
  - destruct t as [|y t']; simpl in *; [lia | reflexivity].
  - change (skipn (S k) (x :: t)) with (skipn k t).
    change (nth (S k) (x :: t) d) with (nth k t d).
    change (nth (S (S k)) (x :: t) d) with (nth (S k) t d).
    apply IH. lia.
Qed.

Lemma np_mean_one (x : float) : feq (np_mean [x]) x.
Proof.
  destruct x as [a| | |]; unfold np_mean; simpl; auto.
  unfold Qdiv. change (/ inject_Z 1) with 1. ring.
Qed.

Lemma np_mean_two_fin (a b : Q) :
  exists m, np_mean [Fin a; Fin b] = Fin m /\ m == (a + b) / 2.
Proof.
  eexists. split; [reflexivity|]. simpl.
  change (inject_Z 2) with 2. field.
Qed.

Lemma np_median_nil : np_median [] = NaN.
Proof. reflexivity. Qed.

Lemma np_median_has_nan (a : list float) :
  existsb is_nan a = true -> np_median a = NaN.
Proof. unfold np_median. intros ->. reflexivity. Qed.

Lemma np_median_odd (a : list float) :
  no_nan a -> Nat.odd (length a) = true ->
  np_median a = np_mean [nth (length a / 2) (sort a) NaN].
Proof.
  intros Hn Hodd. unfold np_median. rewrite Hn, sort_length, Hodd.
  rewrite slice1 with (d := NaN); [reflexivity|].
  rewrite sort_length.
  apply Nat.div_lt; [|lia].
  destruct a; simpl in *; [discriminate | lia].
Qed.

Lemma np_median_even (a : list float) :
  no_nan a -> Nat.odd (length a) = false -> a <> [] ->
  np_median a =
  np_mean [nth (length a / 2 - 1) (sort a) NaN; nth (length a / 2) (sort a) NaN].
Proof.
  intros Hn Hodd Hne. unfold np_median. rewrite Hn, sort_length, Hodd.
  assert (Hl : (0 < length a)%nat) by (destruct a; simpl; [congruence | lia]).
  assert (Hh : (1 <= length a / 2)%nat).
  { apply Nat.div_le_lower_bound; [lia|].
    destruct a as [|x [|y t]]; simpl in *; try discriminate; lia. }
  rewrite slice2 with (d := NaN).
  - replace (S (length a / 2 - 1)) with (length a / 2)%nat by lia. reflexivity.
  - rewrite sort_length.
    replace (S (length a / 2 - 1)) with (length a / 2)%nat by lia.
    apply Nat.div_lt; lia.
Qed.

(** The median is a sample, or the mean of two samples. *)
Lemma np_median_cases (a : list float) :
  no_nan a -> a <> [] ->
  (Nat.odd (length a) = true /\
   exists x, In x a /\ np_median a = np_mean [x]) \/
  (Nat.odd (length a) = false /\
   exists x y, In x a /\ In y a /\ fle x y /\ np_median a = np_mean [x; y]).
Proof.
  intros Hn Hne.
  assert (Hl : (0 < length a)%nat) by (destruct a; simpl; [congruence | lia]).
  assert (Hin : forall k, (k < length a)%nat -> In (nth k (sort a) NaN) a).
  { intros k Hk. eapply Permutation_in.
    - apply Permutation_sym, sort_perm.
    - apply nth_In. rewrite sort_length. exact Hk. }
  assert (Hhalf : (length a / 2 < length a)%nat) by (apply Nat.div_lt; lia).
  destruct (Nat.odd (length a)) eqn:Hodd.
  - left. split; [reflexivity|].
    exists (nth (length a / 2) (sort a) NaN). split.
    + apply Hin. exact Hhalf.
    + apply np_median_odd; assumption.
  - right. split; [reflexivity|].
    exists (nth (length a / 2 - 1) (sort a) NaN), (nth (length a / 2) (sort a) NaN).
    split; [apply Hin; lia|]. split; [apply Hin; exact Hhalf|]. split.
    + apply sorted_nth_le.
      * apply sort_sorted. exact Hn.
      * eapply no_nan_perm; [apply sort_perm | exact Hn].
      * rewrite sort_length. lia.
    + apply np_median_even; assumption.
Qed.

(** A property of all samples that the mean of one and of two values keeps
    is a property of the median. *)
Lemma np_median_closed (P : float -> Prop) (a : list float) :
  (forall x, P x -> P (np_mean [x])) ->
  (forall x y, P x -> P y -> P (np_mean [x; y])) ->
  no_nan a -> a <> [] -> Forall P a -> P (np_median a).
Proof.
  intros H1 H2 Hn Hne Hall. rewrite Forall_forall in Hall.
  destruct (np_median_cases Hn Hne) as [[_ [x [Hx ->]]]|[_ [x [y [Hx [Hy [_ ->]]]]]]].
  - apply H1. apply Hall. exact Hx.
  - apply H2; apply Hall; assumption.
Qed.

Lemma finite_no_nan (l : list float) : finite_samples l -> no_nan l.
Proof.
  intro H. apply no_nan_Forall. eapply Forall_impl; [|exact H].
  intros x Hx. destruct x; simpl in *; congruence.
Qed.

Lemma is_finite_Fin (x : float) : is_finite x = true -> exists q, x = Fin q.
Proof. destruct x; simpl; try discriminate. intros _. eauto. Qed.

Lemma np_median_finite (a : list float) :
  finite_samples a -> a <> [] -> is_finite (np_median a) = true.
Proof.
  intros Hf Hne.
  apply np_median_closed with (P := fun x => is_finite x = true);
    auto using finite_no_nan.
  - intros x Hx. apply is_finite_Fin in Hx. destruct Hx as [q ->]. reflexivity.
  - intros x y Hx Hy. apply is_finite_Fin in Hx, Hy.
    destruct Hx as [p ->], Hy as [q ->]. reflexivity.
Qed.

(** ** From the arrays to one pixel *)

Lemma axis0_length (f : list float -> float) (a : ndarray) :
  length (axis0 f a) = width a.
Proof. unfold axis0. rewrite length_map, length_seq. reflexivity. Qed.

Lemma axis0_nth (f : list float -> float) (a : ndarray) (j : nat) (d : float) :
  (j < width a)%nat -> nth j (axis0 f a) d = f (column j (rows a)).
Proof.
  intro Hj. unfold axis0.
  rewrite nth_indep with (d' := f (column 0 (rows a)))
    by (rewrite length_map, length_seq; exact Hj).
  rewrite map_nth with (f := fun j => f (column j (rows a))) (d := O).
  rewrite seq_nth by exact Hj. reflexivity.
Qed.

Lemma axis0_nth_error (f : list float -> float) (a : ndarray) (j : nat) :
  (j < width a)%nat -> nth_error (axis0 f a) j = Some (f (column j (rows a))).
Proof.
  intro Hj. rewrite <- (@axis0_nth f a j NaN Hj).
  apply nth_error_nth'. rewrite axis0_length. exact Hj.
Qed.

Lemma exclude_row_nth (clip_sigma : Q) (row median mad_sigma : list float) (j : nat) :
  (j < length row)%nat -> (j < length median)%nat -> (j < length mad_sigma)%nat ->
  nth j (exclude_row clip_sigma row median mad_sigma) false =
  fgtb (fdiv (fsub (nth j row NaN) (nth j median NaN)) (nth j mad_sigma NaN))
       (Fin clip_sigma).
Proof.
  revert median mad_sigma j.
  induction row as [|x row IH]; intros [|m median] [|s mad_sigma] j H1 H2 H3;
    simpl in *; try lia.
  destruct j as [|j]; [reflexivity|].
  apply IH; lia.
Qed.

Lemma exclude_row_length (clip_sigma : Q) (row median mad_sigma : list float) :
  length median = length row -> length mad_sigma = length row ->
  length (exclude_row clip_sigma row median mad_sigma) = length row.
Proof.
  revert median mad_sigma.
  induction row as [|x row IH]; intros [|m median] [|s mad_sigma] H1 H2;
    simpl in *; try lia.
  rewrite IH; lia.
Qed.

Lemma setitem_scalar_row_nth (row : list float) (mask : list bool) (v : float)
  (j : nat) :
  (j < length row)%nat ->
  nth j (setitem_scalar_row row mask v) NaN =
  if nth j mask false then v else nth j row NaN.
Proof.
  revert mask j. induction row as [|x row IH]; intros [|b mask] j Hj;
    simpl in *; try lia.
  - destruct j; reflexivity.
  - destruct j as [|j]; [reflexivity|]. apply IH. lia.
Qed.

Lemma setitem_scalar_row_length (row : list float) (mask : list bool) (v : float) :
  length (setitem_scalar_row row mask v) = length row.
Proof.
  revert mask. induction row as [|x row IH]; intros [|b mask]; simpl; auto.
Qed.

Lemma column_setitem_scalar (rs : list (list float)) (mask : list (list bool))
  (v : float) (j : nat) :
  length mask = length rs ->
  Forall (fun r => (j < length r)%nat) rs ->
  column j (setitem_scalar rs mask v) =
  map (fun p : float * bool => if snd p then v else fst p)
      (combine (column j rs) (mask_column j mask)).
Proof.
  revert mask. induction rs as [|r rs IH]; intros [|m mask] Hl Hall;
    simpl in *; try lia; [reflexivity|].
  inversion Hall as [|? ? Hr Hrs]; subst.
  rewrite setitem_scalar_row_nth by exact Hr.
  f_equal. apply IH; [lia | exact Hrs].
Qed.

Lemma mask_column_exclude_at (clip_sigma : Q) (rs : list (list float))
  (median mad_sigma : list float) (j : nat) :
  Forall (fun r => (j < length r)%nat) rs ->
  (j < length median)%nat -> (j < length mad_sigma)%nat ->
  mask_column j (exclude_at clip_sigma rs median mad_sigma) =
  map (fun x => fgtb (fdiv (fsub x (nth j median NaN)) (nth j mad_sigma NaN))
                     (Fin clip_sigma))
      (column j rs).
Proof.
  intros Hall H2 H3. unfold mask_column, exclude_at, column.
  rewrite !map_map. apply map_ext_in.
  intros r Hr. rewrite Forall_forall in Hall.
  apply exclude_row_nth; auto.
Qed.

Lemma well_shaped_lt (a : ndarray) (j : nat) :
  well_shaped a -> (j < width a)%nat ->
  Forall (fun r => (j < length r)%nat) (rows a).
Proof.
  intros Hw Hj. eapply Forall_impl; [|exact Hw].
  simpl. intros r Hr. lia.
Qed.

(** The mask of a pixel holds, sample by sample, the test [rejected]. *)
Lemma mask_column_exclude (clip_sigma : Q) (a : ndarray) (j : nat) :
  well_shaped a -> (j < width a)%nat ->
  mask_column j (exclude_of clip_sigma a) =
  map (rejected clip_sigma (column j (rows a))) (column j (rows a)).
Proof.
  intros Hw Hj. unfold exclude_of, median_of, mad_sigma_of.
  rewrite mask_column_exclude_at.
  - rewrite !axis0_nth by exact Hj. reflexivity.
  - apply well_shaped_lt; assumption.
  - rewrite axis0_length. exact Hj.
  - rewrite axis0_length. exact Hj.
Qed.

Lemma combine_map_self (A B : Type) (f : A -> B) (l : list A) :
  combine l (map f l) = map (fun x => (x, f x)) l.
Proof. induction l as [|x l IH]; simpl; [reflexivity | rewrite IH; reflexivity]. Qed.

(** The array program computes [clip_pixel] at every pixel. *)
Lemma pixel_of_column (clip_sigma : Q) (a : ndarray) (j : nat) :
  well_shaped a -> (j < width a)%nat ->
  nth_error (clip_combine_at clip_sigma a) j =
  Some (clip_pixel clip_sigma (column j (rows a))).
Proof.
  intros Hw Hj. unfold clip_combine_at.
  rewrite axis0_nth_error by exact Hj. simpl rows.
  f_equal. unfold clip_pixel, clipped. f_equal.
  rewrite column_setitem_scalar.
  - rewrite mask_column_exclude by assumption.
    rewrite combine_map_self, map_map. reflexivity.
  - unfold exclude_of, exclude_at. rewrite length_map. reflexivity.
  - apply well_shaped_lt; assumption.
Qed.

Lemma clip_combine_at_length (clip_sigma : Q) (a : ndarray) :
  length (clip_combine_at clip_sigma a) = width a.
Proof. unfold clip_combine_at. rewrite axis0_length. reflexivity. Qed.

Lemma get2_column (rs : list (list float)) (i j : nat) (x : float) :
  get2 rs i j = Some x -> nth_error (column j rs) i = Some x.
Proof.
  unfold get2, column. intro H.
  destruct (nth_error rs i) as [r|] eqn:E; [|discriminate].
  rewrite nth_error_map, E. simpl. f_equal.
  apply nth_error_nth. exact H.
Qed.

Lemma get2_mask_column (mask : list (list bool)) (i j : nat) (r : list bool) :
  nth_error mask i = Some r -> (j < length r)%nat ->
  get2 mask i j = nth_error (mask_column j mask) i.
Proof.
  unfold get2, mask_column. intros E Hj.
  rewrite nth_error_map, E. simpl.
  apply nth_error_nth'. exact Hj.
Qed.

(** ** The scale is never negative *)

Lemma fabs_nonneg (x : float) : is_nan x = false -> fnonneg (fabs x).
Proof.
  destruct x; simpl; try congruence; auto.
  intros _. apply Qabs_nonneg.
Qed.

Lemma np_mean_one_nonneg (x : float) : fnonneg x -> fnonneg (np_mean [x]).
Proof.
  destruct x as [a| | |]; simpl; try contradiction; auto.
  intro H. unfold Qdiv. change (/ inject_Z 1) with 1. lra.
Qed.

Lemma np_mean_two_nonneg (x y : float) :
  fnonneg x -> fnonneg y -> fnonneg (np_mean [x; y]).
Proof.
  destruct x as [a| | |], y as [b| | |]; simpl; try contradiction; auto.
  intros Ha Hb. unfold Qdiv. change (/ inject_Z 2) with (1 # 2). lra.
Qed.

Lemma median_absolute_deviation_sign (data : list float) :
  median_absolute_deviation data = NaN \/
  fnonneg (median_absolute_deviation data).
Proof.
  unfold median_absolute_deviation.
  set (devs := map (fun x => fabs (fsub x (np_median data))) data).
  destruct (existsb is_nan devs) eqn:En.
  - left. apply np_median_has_nan. exact En.
  - destruct devs as [|d devs'] eqn:Ed.
    + left. reflexivity.
    + right. rewrite <- Ed. apply np_median_closed.
      * apply np_mean_one_nonneg.
      * apply np_mean_two_nonneg.
      * rewrite Ed. exact En.
      * rewrite Ed. discriminate.
      * apply Forall_forall. intros z Hz.
        assert (Hzn : is_nan z = false).
        { eapply no_nan_In; [|exact Hz]. rewrite Ed. exact En. }
        unfold devs in Hz. apply in_map_iff in Hz.
        destruct Hz as [x [<- _]].
        apply fabs_nonneg.
        destruct (fsub x (np_median data)); simpl in *; congruence.
Qed.

Lemma mad_factor_pos : 0 < mad_factor.
Proof. reflexivity. Qed.

Lemma mad_std_sign (data : list float) :
  mad_std data = NaN \/ fnonneg (mad_std data).
Proof.
  unfold mad_std.
  destruct (median_absolute_deviation_sign data) as [-> | H].
  - left. reflexivity.
  - right. destruct (median_absolute_deviation data) as [a| | |];
      simpl in *; try contradiction; auto.
    pose proof mad_factor_pos. nra.
Qed.

(** ** One-sided rejection *)

(** A quotient above a positive threshold, with a divisor that is not
    negative, has a positive dividend. *)
Lemma quotient_above_pos (a b : float) (c : Q) :
  0 < c -> b = NaN \/ fnonneg b ->
  fgtb (fdiv a b) (Fin c) = true -> fpos a.
Proof.
  intros Hc [-> | Hb].
  - destruct a; discriminate.
  - destruct b as [q| | |]; cbn [fnonneg] in Hb; try (exfalso; exact Hb).
    + destruct a as [p| | |]; cbn [fdiv fopp fgtb fpos]; try discriminate.
      * qcases; cbn [fgtb]; try discriminate; auto.
        intro H. qcases.
        assert (Hq : 0 < q) by lra.
        destruct (Qlt_le_dec 0 p) as [Hp | Hp]; [exact Hp | exfalso].
        assert (p / q <= 0) by (apply Qle_shift_div_r; lra).
        lra.
      * auto.
      * qcases; cbn [fopp fgtb]; [lra | discriminate].
    + destruct a as [p| | |]; cbn [fdiv fgtb fpos]; try discriminate.
      intro H. qcases. lra.
Qed.

Lemma fsub_pos_gt (x m : float) : fpos (fsub x m) -> fgtb x m = true.
Proof.
  destruct x as [p| | |], m as [q| | |]; simpl; try contradiction; auto.
  intro H. apply Qlt_bool_iff. lra.
Qed.

Lemma fgt_fsub_pos (x m : float) : fgtb x m = true -> fpos (fsub x m).
Proof.
  destruct x as [p| | |], m as [q| | |]; simpl; try discriminate; auto.
  intro H. apply Qlt_bool_iff in H. lra.
Qed.

(** A rejected sample lies above the median. *)
Lemma rejected_above_median (clip_sigma : Q) (samples : list float) (x : float) :
  0 < clip_sigma ->
  rejected clip_sigma samples x = true -> fgtb x (np_median samples) = true.
Proof.
  unfold rejected. intros Hc H.
  apply fsub_pos_gt.
  eapply quotient_above_pos; [exact Hc | apply mad_std_sign | exact H].
Qed.

Lemma fle_not_gt (x m : float) : fle x m -> fgtb x m = false.
Proof.
  unfold fle. destruct x as [p| | |], m as [q| | |]; simpl; try discriminate; auto.
  intro H. apply Qle_bool_iff in H. apply Qlt_bool_false. exact H.
Qed.

Lemma not_above_not_rejected (clip_sigma : Q) (samples : list float) (x : float) :
  0 < clip_sigma ->
  fgtb x (np_median samples) = false -> rejected clip_sigma samples x = false.
Proof.
  intros Hc H. destruct (rejected clip_sigma samples x) eqn:E; [|reflexivity].
  apply rejected_above_median in E; [congruence | exact Hc].
Qed.

(** With a zero scale the quotient of a sample above the median is plus
    infinity. *)
Lemma zero_scale_rejects (clip_sigma : Q) (samples : list float) (x : float) :
  feq (mad_std samples) (Fin 0) ->
  fgtb x (np_median samples) = true ->
  fdiv (fsub x (np_median samples)) (mad_std samples) = PInf /\
  rejected clip_sigma samples x = true.
Proof.
  intros Hz Hx. unfold rejected.
  apply fgt_fsub_pos in Hx.
  destruct (mad_std samples) as [d| | |]; simpl in Hz; try contradiction.
  destruct (fsub x (np_median samples)) as [p| | |]; simpl in *;
    try contradiction.
  - assert (E : Qeq_bool d 0 = true) by (apply Qeq_bool_iff; exact Hz).
    rewrite E. qcases; try lra. split; reflexivity.
  - assert (E : Qlt_bool d 0 = false) by (apply Qlt_bool_false; lra).
    rewrite E. split; reflexivity.
Qed.

(** A larger threshold rejects less. *)
Lemma fgtb_threshold_mono (q : float) (s1 s2 : Q) :
  s1 <= s2 -> fgtb q (Fin s2) = true -> fgtb q (Fin s1) = true.
Proof.
  intros Hs. destruct q as [p| | |]; simpl; auto.
  intro H. apply Qlt_bool_iff in H. apply Qlt_bool_iff. lra.
Qed.

(** ** At least half of the samples are not above the median *)

Lemma odd_half (n : nat) : Nat.odd n = true -> n = (2 * (n / 2) + 1)%nat.
Proof.
  intro H. apply Nat.odd_spec in H. destruct H as [m ->].
  replace (2 * m + 1)%nat with (1 + m * 2)%nat by lia.
  rewrite Nat.div_add by lia. simpl. lia.
Qed.

Lemma even_half (n : nat) : Nat.odd n = false -> n = (2 * (n / 2))%nat.
Proof.
  intro H.
  assert (He : Nat.even n = true) by (rewrite <- Nat.negb_odd, H; reflexivity).
  apply Nat.even_spec in He. destruct He as [m ->].
  rewrite Nat.mul_comm, Nat.div_mul by lia. lia.
Qed.

Lemma filter_length_perm (A : Type) (p : A -> bool) (l l' : list A) :
  Permutation l l' -> length (filter p l) = length (filter p l').
Proof.
  intro P. induction P as [|x l l' P IH|x y l|l l' l'' P1 IH1 P2 IH2]; simpl.
  - reflexivity.
  - destruct (p x); simpl; congruence.
  - destruct (p x), (p y); reflexivity.
  - congruence.
Qed.

Lemma filter_length_impl (A : Type) (p q : A -> bool) (l : list A) :
  (forall x, In x l -> p x = true -> q x = true) ->
  (length (filter p l) <= length (filter q l))%nat.
Proof.
  induction l as [|x l IH]; intro H; simpl; [lia|].
  assert (IH' : (length (filter p l) <= length (filter q l))%nat).
  { apply IH. intros z Hz. apply H. right. exact Hz. }
  destruct (p x) eqn:Ep.
  - rewrite (H x (or_introl eq_refl) Ep). simpl. lia.
  - destruct (q x); simpl; lia.
Qed.

Lemma filter_prefix_count (A : Type) (p : A -> bool) (l : list A) (k : nat) (d : A) :
  (k < length l)%nat ->
  (forall i, (i <= k)%nat -> p (nth i l d) = true) ->
  (k + 1 <= length (filter p l))%nat.
Proof.
  revert k. induction l as [|x l IH]; intros k Hk H; simpl in Hk; [lia|].
  assert (Hx : p x = true) by (apply (H O); lia).
  simpl. rewrite Hx. simpl.
  destruct k as [|k]; [lia|].
  assert ((k + 1 <= length (filter p l))%nat); [|lia].
  apply IH; [lia|].
  intros i Hi. apply (H (S i)). lia.
Qed.

Lemma finite_samples_perm (l l' : list float) :
  Permutation l l' -> finite_samples l -> finite_samples l'.
Proof. intros P H. eapply Permutation_Forall; eassumption. Qed.

Lemma finite_samples_nth (l : list float) (k : nat) :
  finite_samples l -> (k < length l)%nat -> exists q, nth k l NaN = Fin q.
Proof.
  intros H Hk. apply is_finite_Fin.
  unfold finite_samples in H. rewrite Forall_forall in H.
  apply H. apply nth_In. exact Hk.
Qed.

(** The lower of the middle samples is not above the median. *)
Lemma lower_middle_le_median (a : list float) :
  finite_samples a -> a <> [] ->
  fle (nth ((length a - 1) / 2) (sort a) NaN) (np_median a).
Proof.
  intros Hf Hne.
  pose proof (finite_no_nan Hf) as Hn.
  assert (Hl : (0 < length a)%nat) by (destruct a; simpl; [congruence | lia]).
  assert (Hfs : finite_samples (sort a))
    by (eapply finite_samples_perm; [apply sort_perm | exact Hf]).
  destruct (Nat.odd (length a)) eqn:Hodd.
  - pose proof (odd_half _ Hodd) as Hh.
    replace ((length a - 1) / 2)%nat with (length a / 2)%nat.
    2:{ rewrite Hh at 2. replace (2 * (length a / 2) + 1 - 1)%nat
          with ((length a / 2) * 2)%nat by lia.
        rewrite Nat.div_mul by lia. reflexivity. }
    rewrite np_median_odd by assumption.
    destruct (@finite_samples_nth (sort a) (length a / 2) Hfs) as [p ->].
    { rewrite sort_length. lia. }
    unfold fle. cbn. apply Qle_bool_iff.
    unfold Qdiv. change (/ inject_Z 1) with 1. lra.
  - pose proof (even_half _ Hodd) as Hh.
    replace ((length a - 1) / 2)%nat with (length a / 2 - 1)%nat.
    2:{ apply Nat.div_unique with (r := 1%nat); lia. }
    rewrite np_median_even by assumption.
    assert (Hle : fle (nth (length a / 2 - 1) (sort a) NaN)
                      (nth (length a / 2) (sort a) NaN)).
    { apply sorted_nth_le.
      - apply sort_sorted. exact Hn.
      - eapply no_nan_perm; [apply sort_perm | exact Hn].
      - rewrite sort_length. lia. }
    destruct (@finite_samples_nth (sort a) (length a / 2 - 1) Hfs) as [p Hp].
    { rewrite sort_length. lia. }
    destruct (@finite_samples_nth (sort a) (length a / 2) Hfs) as [q Hq].
    { rewrite sort_length. lia. }
    rewrite Hp, Hq in *.
    unfold fle in *. cbn in *. apply Qle_bool_iff in Hle. apply Qle_bool_iff.
    unfold Qdiv. change (/ inject_Z 2) with (1 # 2). lra.
Qed.

Lemma half_not_above_median (a : list float) :
  finite_samples a -> a <> [] ->
  (length a <= 2 * length (filter (fun x => fleb x (np_median a)) a))%nat.
Proof.
  intros Hf Hne.
  pose proof (finite_no_nan Hf) as Hn.
  assert (Hl : (0 < length a)%nat) by (destruct a; simpl; [congruence | lia]).
  rewrite (filter_length_perm _ (sort_perm a)).
  assert (Hk : ((length a - 1) / 2 < length (sort a))%nat).
  { rewrite sort_length.
    apply Nat.le_lt_trans with (length a - 1)%nat; [|lia].
    apply Nat.Div0.div_le_upper_bound; lia. }
  pose proof (@filter_prefix_count _ (fun x => fleb x (np_median a)) (sort a)
                ((length a - 1) / 2) NaN Hk) as Hc.
  assert (Hhalf : (length a <= 2 * ((length a - 1) / 2 + 1))%nat).
  { pose proof (Nat.div_mod_eq (length a - 1) 2) as E.
    pose proof (Nat.mod_upper_bound (length a - 1) 2). lia. }
  assert ((length a - 1) / 2 + 1 <=
          length (filter (fun x => fleb x (np_median a)) (sort a)))%nat; [|lia].
  apply Hc. intros i Hi.
  change (fle (nth i (sort a) NaN) (np_median a)).
  eapply fle_trans; [|apply lower_middle_le_median; assumption].
  apply sorted_nth_le.
  - apply sort_sorted. exact Hn.
  - eapply no_nan_perm; [apply sort_perm | exact Hn].
  - lia.
Qed.

(** At least half of the samples of a pixel enter the average. *)
Lemma half_survive (clip_sigma : Q) (a : list float) :
  0 < clip_sigma -> finite_samples a -> a <> [] ->
  (length a <= 2 * length (survivors clip_sigma a))%nat.
Proof.
  intros Hc Hf Hne.
  pose proof (half_not_above_median Hf Hne) as H.
  assert (length (filter (fun x => fleb x (np_median a)) a) <=
          length (survivors clip_sigma a))%nat; [|lia].
  apply filter_length_impl. intros x _ Hx.
  apply negb_true_iff. apply not_above_not_rejected; [exact Hc|].
  apply fle_not_gt. exact Hx.
Qed.

(** ** The average of the samples that are kept *)

Lemma fsum_finite (l : list float) :
  finite_samples l -> exists s, fsum l = Fin s.
Proof.
  induction 1 as [|x l Hx Hl [s IH]]; simpl.
  - eauto.
  - apply is_finite_Fin in Hx. destruct Hx as [q ->]. rewrite IH. simpl. eauto.
Qed.

Lemma of_nat_nonzero (n : nat) :
  (0 < n)%nat -> Qeq_bool (inject_Z (Z.of_nat n)) 0 = false.
Proof.
  intro H. apply Qeq_bool_false. intro E.
  unfold Qeq in E. simpl in E. lia.
Qed.

Lemma of_nat_pos (n : nat) : (0 < n)%nat -> 0 < inject_Z (Z.of_nat n).
Proof. intro H. unfold Qlt. simpl. lia. Qed.

Lemma replace_nan_clipped_finite (r : float -> bool) (l : list float) :
  finite_samples l ->
  finite_samples (replace_nan (map (fun x => if r x then NaN else x) l)).
Proof.
  induction 1 as [|x l Hx Hl IH]; simpl.
  - constructor.
  - constructor; [|exact IH].
    destruct (r x); [reflexivity|].
    apply is_finite_Fin in Hx. destruct Hx as [q ->]. reflexivity.
Qed.

Lemma count_valid_clipped (r : float -> bool) (l : list float) :
  finite_samples l ->
  count_valid (map (fun x => if r x then NaN else x) l) =
  length (filter (fun x => negb (r x)) l).
Proof.
  unfold count_valid. induction 1 as [|x l Hx Hl IH]; simpl.
  - reflexivity.
  - apply is_finite_Fin in Hx. destruct Hx as [q ->].
    destruct (r (Fin q)); simpl; rewrite IH; reflexivity.
Qed.

Lemma fsum_clipped (r : float -> bool) (l : list float) :
  finite_samples l ->
  feq (fsum (replace_nan (map (fun x => if r x then NaN else x) l)))
      (fsum (filter (fun x => negb (r x)) l)).
Proof.
  induction 1 as [|x l Hx Hl IH]; simpl.
  - reflexivity.
  - apply is_finite_Fin in Hx. destruct Hx as [q ->].
    destruct (fsum_finite (replace_nan_clipped_finite r Hl)) as [s Hs].
    rewrite Hs in *.
    destruct (r (Fin q)); simpl.
    + destruct (fsum (filter (fun x => negb (r x)) l)); simpl in *;
        try contradiction. lra.
    + destruct (fsum (filter (fun x => negb (r x)) l)); simpl in *;
        try contradiction. lra.
Qed.

Lemma fdiv_feq (x y : float) (n : nat) :
  feq x y -> feq (fdiv x (of_nat n)) (fdiv y (of_nat n)).
Proof.
  destruct x as [a| | |], y as [b| | |]; simpl; try contradiction; auto.
  - intro H. destruct (Qeq_bool (inject_Z (Z.of_nat n)) 0).
    + destruct (Qcompare_zero_cases a) as [[-> ?]|[[-> ?]|[-> ?]]];
        destruct (Qcompare_zero_cases b) as [[-> ?]|[[-> ?]|[-> ?]]];
        simpl; auto; lra.
    + simpl. rewrite H. reflexivity.
  - intros _. destruct (Qlt_bool (inject_Z (Z.of_nat n)) 0); exact I.
  - intros _. destruct (Qlt_bool (inject_Z (Z.of_nat n)) 0); exact I.
Qed.

(** At a pixel of finite samples the combined value is the arithmetic mean
    of the samples that are not rejected. *)
Lemma clip_pixel_mean_survivors (clip_sigma : Q) (a : list float) :
  finite_samples a ->
  feq (clip_pixel clip_sigma a) (np_mean (survivors clip_sigma a)).
Proof.
  intro Hf. unfold clip_pixel, clipped, np_nanmean, np_mean, survivors.
  rewrite count_valid_clipped by exact Hf.
  apply fdiv_feq. apply fsum_clipped. exact Hf.
Qed.

Lemma np_mean_finite (l : list float) :
  finite_samples l -> l <> [] -> exists q, np_mean l = Fin q.
Proof.
  intros Hf Hne. unfold np_mean.
  destruct (fsum_finite Hf) as [s ->].
  unfold of_nat, fdiv. rewrite of_nat_nonzero.
  - eauto.
  - destruct l; simpl; [congruence | lia].
Qed.

Lemma survivors_finite (clip_sigma : Q) (a : list float) :
  finite_samples a -> finite_samples (survivors clip_sigma a).
Proof.
  intro H. unfold survivors, finite_samples in *.
  rewrite Forall_forall in *. intros x Hx.
  apply filter_In in Hx. apply H. tauto.
Qed.

Lemma survivors_nonempty (clip_sigma : Q) (a : list float) :
  0 < clip_sigma -> finite_samples a -> a <> [] -> survivors clip_sigma a <> [].
Proof.
  intros Hc Hf Hne E.
  pose proof (half_survive Hc Hf Hne) as H. rewrite E in H. simpl in H.
  destruct a; simpl in *; [congruence | lia].
Qed.

(** At a pixel of finite samples the combined value is a finite number. *)
Lemma clip_pixel_finite (clip_sigma : Q) (a : list float) :
  0 < clip_sigma -> finite_samples a -> a <> [] ->
  exists q, clip_pixel clip_sigma a = Fin q.
Proof.
  intros Hc Hf Hne.
  destruct (@np_mean_finite (survivors clip_sigma a)) as [q Hq].
  - apply survivors_finite. exact Hf.
  - apply survivors_nonempty; assumption.
  - pose proof (clip_pixel_mean_survivors clip_sigma Hf) as H.
    rewrite Hq in H.
    destruct (clip_pixel clip_sigma a) as [p| | |]; simpl in H;
      try contradiction. eauto.
Qed.

(** ** Identical samples *)

Lemma feq_not_gt (y m : float) : feq y m -> fgtb y m = false.
Proof.
  destruct y as [a| | |], m as [b| | |]; simpl; try contradiction; auto.
  intro H. apply Qlt_bool_false. lra.
Qed.

Lemma feq_is_nan (y x : float) : feq y x -> is_nan y = is_nan x.
Proof. destruct y, x; simpl; try contradiction; auto. Qed.

Lemma identical_no_nan (x : float) (samples : list float) :
  is_nan x = false -> identical x samples -> no_nan samples.
Proof.
  intros Hx H. apply no_nan_Forall. eapply Forall_impl; [|exact H].
  simpl. intros y Hy. rewrite (feq_is_nan _ _ Hy). exact Hx.
Qed.

Lemma median_identical (x : float) (samples : list float) :
  is_nan x = false -> samples <> [] -> identical x samples ->
  feq (np_median samples) x.
Proof.
  intros Hx Hne Hid.
  apply np_median_closed with (P := fun y => feq y x); auto.
  - intros y Hy. eapply feq_trans; [apply np_mean_one | exact Hy].
  - intros y z Hy Hz.
    destruct x as [q| | |], y as [a| | |], z as [b| | |];
      cbn [feq] in Hy, Hz; try (exfalso; assumption); try discriminate.
    + cbn. unfold Qdiv. change (/ inject_Z 2) with (1 # 2). lra.
    + exact I.
    + exact I.
  - eapply identical_no_nan; eassumption.
Qed.

(** Identical samples: none is rejected. *)
Lemma identical_not_rejected (clip_sigma : Q) (x : float) (samples : list float) :
  0 < clip_sigma -> identical x samples ->
  forall y, In y samples -> rejected clip_sigma samples y = false.
Proof.
  intros Hc Hid y Hy.
  assert (Hne : samples <> []) by (intro E; rewrite E in Hy; exact Hy).
  apply not_above_not_rejected; [exact Hc|].
  unfold identical in Hid. rewrite Forall_forall in Hid.
  pose proof (Hid y Hy) as Hyx.
  destruct (is_nan x) eqn:Hx.
  - rewrite <- (feq_is_nan _ _ Hyx) in Hx. destruct y; simpl in *; congruence.
  - apply feq_not_gt. eapply feq_trans; [exact Hyx|].
    apply feq_sym. apply median_identical; auto.
    apply Forall_forall. exact Hid.
Qed.

(** Identical finite samples: the scale is zero. *)
Lemma identical_mad_zero (q : Q) (samples : list float) :
  samples <> [] -> identical (Fin q) samples -> feq (mad_std samples) (Fin 0).
Proof.
  intros Hne Hid. unfold mad_std, median_absolute_deviation.
  pose proof (@median_identical (Fin q) samples eq_refl Hne Hid) as Hm.
  destruct (np_median samples) as [m| | |]; cbn [feq] in Hm;
    try (exfalso; exact Hm).
  assert (Hd : feq (np_median (map (fun x => fabs (fsub x (Fin m))) samples))
                   (Fin 0)).
  { apply median_identical; [reflexivity | |].
    - destruct samples; simpl; congruence.
    - unfold identical in *. rewrite Forall_forall in *.
      intros d Hd. apply in_map_iff in Hd. destruct Hd as [y [<- Hy]].
      specialize (Hid y Hy).
      destruct y as [a| | |]; cbn [feq] in Hid; try (exfalso; exact Hid).
      cbn [fabs fsub feq]. apply Qabs_case; intros; lra. }
  destruct (np_median (map (fun x => fabs (fsub x (Fin m))) samples))
    as [z| | |]; cbn [feq] in Hd; try (exfalso; exact Hd).
  cbn. rewrite Hd. ring.
Qed.

Lemma fsum_repeat_fin (q : Q) (n : nat) :
  exists s, fsum (repeat (Fin q) n) = Fin s /\ s == inject_Z (Z.of_nat n) * q.
Proof.
  induction n as [|n [s [Hs Es]]].
  - exists 0. split; [reflexivity | simpl; ring].
  - exists (q + s). split.
    + simpl. rewrite Hs. reflexivity.
    + rewrite Es, Nat2Z.inj_succ. unfold Z.succ.
      rewrite inject_Z_plus. ring.
Qed.

Lemma fsum_repeat_pinf (n : nat) : fsum (repeat PInf (S n)) = PInf.
Proof. induction n as [|n IH]; [reflexivity|]. simpl in *. rewrite IH. reflexivity. Qed.

Lemma fsum_repeat_ninf (n : nat) : fsum (repeat NInf (S n)) = NInf.
Proof. induction n as [|n IH]; [reflexivity|]. simpl in *. rewrite IH. reflexivity. Qed.

Lemma replace_nan_repeat (x : float) (n : nat) :
  replace_nan (repeat x n) = repeat (if is_nan x then Fin 0 else x) n.
Proof. unfold replace_nan. apply map_repeat. Qed.

Lemma count_valid_repeat (x : float) (n : nat) :
  count_valid (repeat x n) = if is_nan x then O else n.
Proof.
  unfold count_valid. induction n as [|n IH]; simpl.
  - destruct (is_nan x); reflexivity.
  - destruct (is_nan x); simpl in *; rewrite IH; reflexivity.
Qed.

(** The mean of [n] copies of a value is that value. *)
Lemma np_nanmean_repeat (x : float) (n : nat) :
  (0 < n)%nat -> feq (np_nanmean (repeat x n)) x.
Proof.
  intro Hn. unfold np_nanmean.
  rewrite replace_nan_repeat, count_valid_repeat.
  destruct x as [q| | |]; cbn [is_nan].
  - destruct (fsum_repeat_fin q n) as [s [-> Es]].
    unfold of_nat, fdiv. rewrite of_nat_nonzero by exact Hn.
    cbn [feq]. rewrite Es. field.
    apply Qeq_bool_false, of_nat_nonzero. exact Hn.
  - destruct n as [|n]; [lia|]. rewrite fsum_repeat_pinf.
    unfold of_nat, fdiv.
    assert (E : Qlt_bool (inject_Z (Z.of_nat (S n))) 0 = false).
    { apply Qlt_bool_false. apply Qlt_le_weak, of_nat_pos. lia. }
    rewrite E. exact I.
  - destruct n as [|n]; [lia|]. rewrite fsum_repeat_ninf.
    unfold of_nat, fdiv.
    assert (E : Qlt_bool (inject_Z (Z.of_nat (S n))) 0 = false).
    { apply Qlt_bool_false. apply Qlt_le_weak, of_nat_pos. lia. }
    rewrite E. exact I.
  - destruct (fsum_repeat_fin 0 n) as [s [-> Es]].
    unfold of_nat, fdiv. change (Qeq_bool (inject_Z (Z.of_nat 0)) 0) with true.
    cbv iota.
    destruct (Qcompare_zero_cases s) as [[-> ?]|[[-> ?]|[-> ?]]];
      [exact I | |]; exfalso; lra.
Qed.

Lemma column_repeat (im : list float) (n j : nat) :
  column j (repeat im n) = repeat (nth j im NaN) n.
Proof. unfold column. apply map_repeat. Qed.

Lemma identical_repeat (x : float) (n : nat) : identical x (repeat x n).
Proof.
  unfold identical. apply Forall_forall. intros y Hy.
  apply repeat_spec in Hy. subst. apply feq_refl.
Qed.

Lemma clipped_identical (clip_sigma : Q) (x : float) (samples : list float) :
  0 < clip_sigma -> identical x samples -> clipped clip_sigma samples = samples.
Proof.
  intros Hc Hid. unfold clipped.
  transitivity (map (fun y : float => y) samples); [|apply map_id].
  apply map_ext_in.
  intros y Hy. rewrite (identical_not_rejected Hc Hid y Hy). reflexivity.
Qed.

Lemma clip_pixel_repeat (clip_sigma : Q) (x : float) (n : nat) :
  0 < clip_sigma -> (0 < n)%nat -> feq (clip_pixel clip_sigma (repeat x n)) x.
Proof.
  intros Hc Hn. unfold clip_pixel.
  rewrite (clipped_identical Hc (identical_repeat x n)).
  apply np_nanmean_repeat. exact Hn.
Qed.

(** ** Masked reading and writing *)

Lemma setitem_row_restores (row : list float) (mask : list bool) (v : float)
  (rest : list float) :
  setitem_row (setitem_scalar_row row mask v) mask (getitem_row row mask ++ rest)
  = (row, rest).
Proof.
  revert mask. induction row as [|x row IH]; intros [|b mask]; simpl;
    try reflexivity.
  destruct b; simpl; rewrite IH; reflexivity.
Qed.

Lemma setitem_restores_app (bits : list (list float)) (mask : list (list bool))
  (v : float) (rest : list float) :
  setitem (setitem_scalar bits mask v) mask (getitem bits mask ++ rest) = bits.
Proof.
  revert mask rest. induction bits as [|row bits IH]; intros [|m mask] rest;
    simpl; try reflexivity.
  rewrite <- app_assoc, setitem_row_restores, IH. reflexivity.
Qed.

(** Writing back the values read through a mask undoes the masked write. *)
Lemma setitem_restores (bits : list (list float)) (mask : list (list bool))
  (v : float) :
  setitem (setitem_scalar bits mask v) mask (getitem bits mask) = bits.
Proof.
  rewrite <- (app_nil_r (getitem bits mask)). apply setitem_restores_app.
Qed.

(** ** The store *)

Lemma update_length (l : loc) (o : object) (h : heap) :
  length (update l o h) = length h.
Proof.
  revert l. induction h as [|o' h IH]; intros [|l]; simpl; auto.
Qed.

Lemma update_app (l : loc) (o : object) (h t : heap) :
  (l < length h)%nat -> update l o (h ++ t) = update l o h ++ t.
Proof.
  revert l. induction h as [|o' h IH]; intros [|l] Hl; simpl in *; try lia.
  - reflexivity.
  - rewrite IH by lia. reflexivity.
Qed.

Lemma update_update (l : loc) (o o' : object) (h : heap) :
  update l o (update l o' h) = update l o h.
Proof.
  revert l. induction h as [|o'' h IH]; intros [|l]; simpl; auto.
  rewrite IH. reflexivity.
Qed.

Lemma update_same (l : loc) (o : object) (h : heap) :
  nth_error h l = Some o -> update l o h = h.
Proof.
  revert l. induction h as [|o' h IH]; intros [|l] H; simpl in *; try discriminate.
  - congruence.
  - rewrite IH by exact H. reflexivity.
Qed.

Lemma nth_error_update (l : loc) (o : object) (h : heap) :
  (l < length h)%nat -> nth_error (update l o h) l = Some o.
Proof.
  revert l. induction h as [|o' h IH]; intros [|l] Hl; simpl in *; try lia.
  - reflexivity.
  - apply IH. lia.
Qed.

Lemma nth_error_lt (h : heap) (l : loc) (o : object) :
  nth_error h l = Some o -> (l < length h)%nat.
Proof. intro H. apply nth_error_Some. congruence. Qed.

Lemma nth_error_app_l (h t : heap) (l : loc) (o : object) :
  nth_error h l = Some o -> nth_error (h ++ t) l = Some o.
Proof.
  intro H. rewrite nth_error_app1; [exact H | eapply nth_error_lt; eassumption].
Qed.

Lemma nth_error_app_new (h t : heap) (k : nat) :
  nth_error (h ++ t) (length h + k) = nth_error t k.
Proof.
  rewrite nth_error_app2 by lia. f_equal. lia.
Qed.

Lemma load_float2_ok (h : heap) (l : loc) (a : ndarray) :
  nth_error h l = Some (Float2 a) -> load_float2 l h = Ok a h.
Proof. intro H. unfold load_float2, bind, load. rewrite H. reflexivity. Qed.

Lemma load_float1_ok (h : heap) (l : loc) (v : list float) :
  nth_error h l = Some (Float1 v) -> load_float1 l h = Ok v h.
Proof. intro H. unfold load_float1, bind, load. rewrite H. reflexivity. Qed.

Lemma load_bool2_ok (h : heap) (l : loc) (m : list (list bool)) :
  nth_error h l = Some (Bool2 m) -> load_bool2 l h = Ok m h.
Proof. intro H. unfold load_bool2, bind, load. rewrite H. reflexivity. Qed.

Lemma store_ok (h : heap) (l : loc) (o o' : object) :
  nth_error h l = Some o' -> store l o h = Ok tt (update l o h).
Proof. intro H. unfold store. rewrite H. reflexivity. Qed.

Lemma py_axis0_ok (f : list float -> float) (h : heap) (bits : loc) (a : ndarray) :
  nth_error h bits = Some (Float2 a) ->
  py_axis0 f bits h = Ok (length h) (h ++ [Float1 (axis0 f a)]).
Proof.
  intro H. unfold py_axis0, bind. rewrite (@load_float2_ok _ _ _ H). reflexivity.
Qed.

(** The run of the cells: five arrays are allocated after the arrays of the
    store, in the order of the cells, and the store is otherwise as before. *)
Lemma cells_run (clip_sigma : Q) (h : heap) (bits : loc) (a : ndarray) :
  nth_error h bits = Some (Float2 a) ->
  cells clip_sigma bits h =
  Ok (length h + 4)%nat
     (h ++ [Float1 (median_of a); Float1 (mad_sigma_of a);
            Bool2 (exclude_of clip_sigma a);
            Float1 (getitem (rows a) (exclude_of clip_sigma a));
            Float1 (clip_combine_at clip_sigma a)]).
Proof.
  intro H. pose proof (@nth_error_lt _ _ _ H) as Hlt.
  unfold cells.
  unfold bind at 1. rewrite (@py_axis0_ok _ _ _ _ H).
  unfold bind at 1.
  rewrite (@py_axis0_ok _ _ _ _ (@nth_error_app_l _ _ _ _ H)).
  rewrite <- app_assoc. cbn [app].
  set (h2 := h ++ [Float1 (axis0 np_median a); Float1 (axis0 mad_std a)]).
  assert (H2 : nth_error h2 bits = Some (Float2 a)) by (apply nth_error_app_l; exact H).
  assert (Hmed : nth_error h2 (length h) = Some (Float1 (median_of a))).
  { unfold h2. rewrite <- (Nat.add_0_r (length h)) at 1.
    apply nth_error_app_new. }
  assert (Hmad : nth_error h2 (length (h ++ [Float1 (axis0 np_median a)]))
                 = Some (Float1 (mad_sigma_of a))).
  { unfold h2. rewrite length_app. cbn [length]. apply nth_error_app_new. }
  unfold bind at 1. unfold py_exclude at 1. unfold bind at 1.
  rewrite (@load_float2_ok _ _ _ H2).
  unfold bind at 1. rewrite (@load_float1_ok _ _ _ Hmed).
  unfold bind at 1. rewrite (@load_float1_ok _ _ _ Hmad).
  unfold alloc at 1.
  fold (exclude_of clip_sigma a).
  set (ex := exclude_of clip_sigma a).
  assert (Hlen2 : length h2 = (length h + 2)%nat).
  { unfold h2. rewrite length_app. reflexivity. }
  set (h3 := h2 ++ [Bool2 ex]).
  assert (H3 : nth_error h3 bits = Some (Float2 a)) by (apply nth_error_app_l; exact H2).
  assert (Hex : nth_error h3 (length h2) = Some (Bool2 ex)).
  { unfold h3. rewrite <- (Nat.add_0_r (length h2)) at 1.
    apply nth_error_app_new. }
  unfold bind at 1. unfold py_getitem at 1. unfold bind at 1.
  rewrite (@load_float2_ok _ _ _ H3).
  unfold bind at 1. rewrite (@load_bool2_ok _ _ _ Hex).
  unfold alloc at 1.
  set (orig := getitem (rows a) ex).
  set (h4 := h3 ++ [Float1 orig]).
  assert (H4 : nth_error h4 bits = Some (Float2 a)) by (apply nth_error_app_l; exact H3).
  assert (Hex4 : nth_error h4 (length h2) = Some (Bool2 ex))
    by (apply nth_error_app_l; exact Hex).
  assert (Horig : nth_error h4 (length h3) = Some (Float1 orig)).
  { unfold h4. rewrite <- (Nat.add_0_r (length h3)) at 1.
    apply nth_error_app_new. }
  unfold bind at 1. unfold py_setitem_scalar at 1. unfold bind at 1.
  rewrite (@load_float2_ok _ _ _ H4).
  unfold bind at 1. rewrite (@load_bool2_ok _ _ _ Hex4).
  rewrite (@store_ok _ _ _ _ H4).
  set (masked := mk_ndarray (width a) (setitem_scalar (rows a) ex NaN)).
  assert (Hlt4 : (bits < length h4)%nat) by (eapply nth_error_lt; exact H4).
  set (h5 := update bits (Float2 masked) h4).
  assert (H5 : nth_error h5 bits = Some (Float2 masked))
    by (apply nth_error_update; exact Hlt4).
  unfold bind at 1. rewrite (@py_axis0_ok _ _ _ _ H5).
  change (axis0 np_nanmean masked) with (clip_combine_at clip_sigma a).
  set (out := clip_combine_at clip_sigma a).
  set (h6 := h5 ++ [Float1 out]).
  assert (Hne : bits <> length h2) by lia.
  assert (Hlen4 : length h4 = (length h + 4)%nat).
  { unfold h4, h3. rewrite !length_app. cbn [length]. lia. }
  assert (Hh5 : h5 = update bits (Float2 masked) h ++
                     [Float1 (median_of a); Float1 (mad_sigma_of a); Bool2 ex;
                      Float1 orig]).
  { unfold h5, h4, h3, h2. rewrite <- !app_assoc. cbn [app].
    apply update_app. exact Hlt. }
  assert (H6 : nth_error h6 bits = Some (Float2 masked))
    by (apply nth_error_app_l; exact H5).
  assert (Hex6 : nth_error h6 (length h2) = Some (Bool2 ex)).
  { unfold h6. rewrite Hh5, <- app_assoc. cbn [app].
    rewrite Hlen2, <- (update_length bits (Float2 masked) h).
    apply nth_error_app_new. }
  assert (Horig6 : nth_error h6 (length h3) = Some (Float1 orig)).
  { unfold h6. rewrite Hh5, <- app_assoc. cbn [app].
    unfold h3. rewrite length_app, Hlen2. cbn [length].
    rewrite <- (update_length bits (Float2 masked) h).
    replace (length (update bits (Float2 masked) h) + 2 + 1)%nat
      with (length (update bits (Float2 masked) h) + 3)%nat by lia.
    apply nth_error_app_new. }
  unfold bind at 1. unfold py_setitem at 1. unfold bind at 1.
  rewrite (@load_float2_ok _ _ _ H6).
  unfold bind at 1. rewrite (@load_bool2_ok _ _ _ Hex6).
  unfold bind at 1. rewrite (@load_float1_ok _ _ _ Horig6).
  rewrite (@store_ok _ _ _ _ H6).
  unfold ret. f_equal.
  - unfold h5. rewrite update_length. exact Hlen4.
  - change (rows masked) with (setitem_scalar (rows a) ex NaN).
    change (width masked) with (width a). unfold orig.
    rewrite setitem_restores.
    unfold h6. rewrite Hh5, <- app_assoc. cbn [app].
    rewrite update_app by (rewrite update_length; exact Hlt).
    rewrite update_update.
    replace (mk_ndarray (width a) (rows a)) with a by (destruct a; reflexivity).
    rewrite (@update_same _ _ _ H). reflexivity.
Qed.

(** ** The mask, entry by entry *)

Lemma well_shaped_row (a : ndarray) (i : nat) (r : list float) :
  well_shaped a -> nth_error (rows a) i = Some r -> length r = width a.
Proof.
  intros Hw Hr. unfold well_shaped in Hw. rewrite Forall_forall in Hw.
  apply Hw. eapply nth_error_In. exact Hr.
Qed.

Lemma get2_exclude_of (clip_sigma : Q) (a : ndarray) (i j : nat) (x : float) :
  well_shaped a -> get2 (rows a) i j = Some x ->
  get2 (exclude_of clip_sigma a) i j =
  Some (rejected clip_sigma (column j (rows a)) x).
Proof.
  intros Hw Hx. unfold get2 in *.
  destruct (nth_error (rows a) i) as [r|] eqn:Er; [|discriminate].
  pose proof (well_shaped_row _ Hw Er) as Hlen.
  assert (Hj : (j < width a)%nat).
  { rewrite <- Hlen. apply nth_error_Some. congruence. }
  unfold exclude_of, exclude_at. rewrite nth_error_map, Er. simpl.
  rewrite nth_error_nth' with (d := false).
  - rewrite exclude_row_nth.
    + unfold median_of, mad_sigma_of. rewrite !axis0_nth by exact Hj.
      rewrite (nth_error_nth _ _ NaN Hx). reflexivity.
    + lia.
    + unfold median_of. rewrite axis0_length. exact Hj.
    + unfold mad_sigma_of. rewrite axis0_length. exact Hj.
  - rewrite exclude_row_length.
    + lia.
    + unfold median_of. rewrite axis0_length. lia.
    + unfold mad_sigma_of. rewrite axis0_length. lia.
Qed.

Lemma fgtb_asym (x y : float) : fgtb x y = true -> fgtb y x = false.
Proof.
  destruct x as [a| | |], y as [b| | |]; simpl; try discriminate; auto.
  intro H. apply Qlt_bool_iff in H. apply Qlt_bool_false. lra.
Qed.

Lemma spec_mad_sigma_is_mad_std (samples : list float) :
  spec_mad_sigma samples = mad_std samples.
Proof. reflexivity. Qed.

(** ** The functions on small inputs *)

Example fdiv_positive_by_zero : fdiv (Fin 9900) (Fin 0) = PInf.
Proof. reflexivity. Qed.

Example fdiv_zero_by_zero : fdiv (Fin 0) (Fin 0) = NaN.
Proof. reflexivity. Qed.

Example fgtb_nan_is_false : fgtb NaN (Fin 10) = false.
Proof. reflexivity. Qed.

Example np_median_of_three : feq (np_median [Fin 5; Fin 1; Fin 3]) (Fin 3).
Proof. vm_compute. reflexivity. Qed.

Example np_median_of_four : feq (np_median [Fin 7; Fin 1; Fin 3; Fin 2]) (Fin (5 # 2)).
Proof. vm_compute. reflexivity. Qed.

Example np_median_with_nan : np_median [Fin 1; NaN; Fin 3] = NaN.
Proof. reflexivity. Qed.

Example mad_std_of_four :
  feq (mad_std [Fin 1; Fin 2; Fin 3; Fin 40]) (Fin (14826 # 10000)).
Proof. vm_compute. reflexivity. Qed.

Example np_nanmean_skips_nan : feq (np_nanmean [Fin 1; NaN; Fin 3]) (Fin 2).
Proof. vm_compute. reflexivity. Qed.

(** [np.nanmean] has no value to fall back on when every entry is NaN. *)
Example np_nanmean_of_nan_only : np_nanmean [NaN; NaN; NaN] = NaN.
Proof. reflexivity. Qed.

Example clip_combine_of_four_images :
  let bits := mk_ndarray 2 [[Fin 1; Fin 5]; [Fin 1; Fin 5];
                            [Fin 1; Fin 100]; [Fin 2; Fin 5]] in
  exclude bits = [[false; false]; [false; false]; [false; true]; [true; false]]
  /\ Forall2 feq (clip_combine bits) [Fin 1; Fin 5].
Proof.
  split; [reflexivity|].
  vm_compute. repeat constructor.
Qed.

Example masked_write_and_restore :
  let bits := [[Fin 1; Fin 5]; [Fin 2; Fin 100]] in
  let mask := [[false; false]; [true; true]] in
  getitem bits mask = [Fin 2; Fin 100]
  /\ setitem_scalar bits mask NaN = [[Fin 1; Fin 5]; [NaN; NaN]]
  /\ setitem (setitem_scalar bits mask NaN) mask (getitem bits mask) = bits.
Proof. repeat split. Qed.

(** * The claims *)



Lemma exclude_row_mono (s1 s2 : Q) (row median mad_sigma : list float) (j : nat) :
  s1 <= s2 ->
  nth_error (exclude_row s2 row median mad_sigma) j = Some true ->
  nth_error (exclude_row s1 row median mad_sigma) j = Some true.
Proof.
  intro Hs. revert median mad_sigma j.
  induction row as [|x row IH]; intros [|m median] [|s mad_sigma] j;
    simpl; try (destruct j; discriminate).
  destruct j as [|j]; simpl.
  - intro H. injection H as H. f_equal.
    eapply fgtb_threshold_mono; eassumption.
  - apply IH.
Qed.

(** Claim C7.  For thresholds [s1 <= s2] and one stack, every mask entry
    that is set with the threshold [s2] is set with the threshold [s1]: the
    samples rejected at a pixel with [s2] are among those rejected with
    [s1]. *)
Theorem C7_rejection_monotone_in_threshold
  (s1 s2 : Q) (a : ndarray) (i j : nat) :
  s1 <= s2 ->
  get2 (exclude_of s2 a) i j = Some true ->
  get2 (exclude_of s1 a) i j = Some true.
Proof.
  intro Hs. unfold get2, exclude_of, exclude_at.
  rewrite !nth_error_map.
  destruct (nth_error (rows a) i) as [r|]; simpl; [|discriminate].
  apply exclude_row_mono. exact Hs.
Qed.

Lemma C7_witness :
  let a := mk_ndarray 1 [[Fin 1]; [Fin 2]; [Fin 3]; [Fin 40]] in
  get2 (exclude_of 5 a) 3 0 = Some true.
Proof.
  intro a.
  apply (@C7_rejection_monotone_in_threshold 5 10 a 3 0).
  - discriminate.
  - reflexivity.
Defined.

(** Claim C10.  At a pixel whose scale [mad_sigma] is zero, every sample
    above the median has the quotient [(sample - median) / mad_sigma] equal
    to plus infinity and is rejected, for every threshold. *)
Theorem C10_zero_scale_rejects_above_median
  (clip_sigma : Q) (a : ndarray) (i j : nat) (sample : float) :
  well_shaped a ->
  get2 (rows a) i j = Some sample ->
  feq (mad_std (column j (rows a))) (Fin 0) ->
  fgtb sample (np_median (column j (rows a))) = true ->
  fdiv (fsub sample (np_median (column j (rows a))))
       (mad_std (column j (rows a))) = PInf
  /\ nth_error (mad_sigma_of a) j = Some (mad_std (column j (rows a)))
  /\ get2 (exclude_of clip_sigma a) i j = Some true.
Proof.
  intros Hw Hx Hz Hgt.
  destruct (@zero_scale_rejects clip_sigma (column j (rows a)) sample Hz Hgt)
    as [Hq Hr].
  split; [exact Hq|]. split.
  - apply axis0_nth_error.
    unfold get2 in Hx.
    destruct (nth_error (rows a) i) as [r|] eqn:Er; [|discriminate].
    rewrite <- (@well_shaped_row a i r Hw Er).
    apply nth_error_Some. congruence.
  - rewrite (@get2_exclude_of clip_sigma a i j sample Hw Hx).
    f_equal. exact Hr.
Qed.

Lemma C10_witness :
  let a := mk_ndarray 1 [[Fin 1]; [Fin 1]; [Fin 1]; [Fin 5]] in
  nth_error (mad_sigma_of a) 0 = Some (mad_std (column 0 (rows a)))
  /\ get2 (exclude_of 1000000 a) 3 0 = Some true.
Proof.
  intro a.
  apply (@C10_zero_scale_rejects_above_median 1000000 a 3 0 (Fin 5)).
  - repeat constructor.
  - reflexivity.
  - vm_compute. reflexivity.
  - reflexivity.
Defined.

Lemma map_const_repeat (A B : Type) (f : A -> B) (b : B) (l : list A) :
  (forall x, In x l -> f x = b) -> map f l = repeat b (length l).
Proof.
  induction l as [|x l IH]; intro H; simpl; [reflexivity|].
  rewrite (H x (or_introl eq_refl)), IH; [reflexivity|].
  intros y Hy. apply H. right. exact Hy.
Qed.

Lemma column_length (j : nat) (rs : list (list float)) :
  length (column j rs) = length rs.
Proof. unfold column. apply length_map. Qed.

Lemma column_nonempty (j : nat) (rs : list (list float)) :
  rs <> [] -> column j rs <> [].
Proof. destruct rs; simpl; congruence. Qed.




Lemma Forall2_pointwise (u v : list float) :
  length u = length v ->
  (forall j, (j < length v)%nat -> feq (nth j u NaN) (nth j v NaN)) ->
  Forall2 feq u v.
Proof.
  revert v. induction u as [|x u IH]; intros [|y v] Hl H; simpl in Hl;
    try discriminate; constructor.
  - apply (H O). simpl. lia.
  - apply IH; [lia|]. intros j Hj. apply (H (S j)). simpl. lia.
Qed.



(** ** The stack of the outlier test *)

Lemma set_nth_length (A : Type) (n : nat) (v : A) (l : list A) :
  length (set_nth n v l) = length l.
Proof.
  revert n. induction l as [|x l IH]; intros [|n]; simpl; auto.
Qed.

Lemma map_set_nth (A B : Type) (f : A -> B) (n : nat) (v : A) (l : list A) :
  map f (set_nth n v l) = set_nth n (f v) (map f l).
Proof.
  revert n. induction l as [|x l IH]; intros [|n]; simpl; auto.
  rewrite IH. reflexivity.
Qed.

Lemma nth_set_nth (A : Type) (n : nat) (v d : A) (l : list A) :
  (n < length l)%nat -> nth n (set_nth n v l) d = v.
Proof.
  revert n. induction l as [|x l IH]; intros [|n] Hn; simpl in *; try lia.
  - reflexivity.
  - apply IH. lia.
Qed.

Lemma nth_error_set_nth (A : Type) (n : nat) (v : A) (l : list A) :
  (n < length l)%nat -> nth_error (set_nth n v l) n = Some v.
Proof.
  revert n. induction l as [|x l IH]; intros [|n] Hn; simpl in *; try lia.
  - reflexivity.
  - apply IH. lia.
Qed.

Lemma In_set_nth (A : Type) (n : nat) (v : A) (l : list A) (x : A) :
  In x (set_nth n v l) -> x = v \/ In x l.
Proof.
  revert n. induction l as [|y l IH]; intros [|n]; simpl; auto.
  - intros [H | H]; auto.
  - intros [H | H]; auto. destruct (IH n H); auto.
Qed.

Lemma constant_image_length (w : nat) (v : Q) : length (constant_image w v) = w.
Proof. apply repeat_length. Qed.

Lemma spiked_stack_well_shaped (n w : nat) (base spike : Q) (k j : nat) :
  well_shaped (spiked_stack n w base spike k j).
Proof.
  unfold well_shaped, spiked_stack. simpl. apply Forall_forall.
  intros r Hr. apply In_set_nth in Hr. destruct Hr as [-> | Hr].
  - rewrite set_nth_length. apply constant_image_length.
  - apply repeat_spec in Hr. subst. apply constant_image_length.
Qed.

Lemma spiked_stack_column (n w : nat) (base spike : Q) (k j : nat) :
  (j < w)%nat ->
  column j (rows (spiked_stack n w base spike k j)) =
  set_nth k (Fin spike) (repeat (Fin base) n).
Proof.
  intro Hj. unfold spiked_stack, column. simpl rows.
  rewrite map_set_nth, map_repeat.
  rewrite nth_set_nth by (rewrite constant_image_length; exact Hj).
  unfold constant_image. rewrite nth_repeat_lt by exact Hj. reflexivity.
Qed.

Lemma spiked_stack_get2 (n w : nat) (base spike : Q) (k j : nat) :
  (k < n)%nat -> (j < w)%nat ->
  get2 (rows (spiked_stack n w base spike k j)) k j = Some (Fin spike).
Proof.
  intros Hk Hj. unfold get2, spiked_stack. simpl rows.
  rewrite nth_error_set_nth by (rewrite repeat_length; exact Hk).
  apply nth_error_set_nth. rewrite constant_image_length. exact Hj.
Qed.

(** Claim C6.  In the stack of 20 constant images of value 100 in which
    pixel [j] of image [k] is set to 10000, the combined value at pixel [j]
    is 100: the sample 10000 is rejected (while the plain mean of the 20
    samples is 595). *)
Theorem C6_outlier_is_rejected (w j k : nat) :
  (j < w)%nat -> (k < 20)%nat ->
  let a := spiked_stack 20 w 100 10000 k j in
  (exists q, nth_error (clip_combine a) j = Some (Fin q) /\ q == 100)
  /\ get2 (exclude a) k j = Some true
  /\ feq (np_mean (column j (rows a))) (Fin 595).
Proof.
  intros Hj Hk a.
  pose proof (spiked_stack_well_shaped 20 w 100 10000 k j) as Hw.
  pose proof (@spiked_stack_column 20 w 100 10000 k j Hj) as Hcol.
  pose proof (@spiked_stack_get2 20 w 100 10000 k j Hk Hj) as Hget.
  fold a in Hw, Hcol, Hget.
  unfold clip_combine, exclude.
  rewrite (@pixel_of_column clip_sigma_default a j Hw Hj).
  rewrite (@get2_exclude_of clip_sigma_default a k j (Fin 10000) Hw Hget).
  rewrite Hcol. clear Hw Hcol Hget a.
  do 20 (destruct k as [|k];
         [ split; [eexists; split; [vm_compute; reflexivity | reflexivity]
                  | split; vm_compute; reflexivity] |]).
  lia.
Qed.

Lemma C6_witness :
  exists q,
    nth_error (clip_combine (spiked_stack 20 4 100 10000 7 2)) 2 = Some (Fin q)
    /\ q == 100.
Proof.
  apply (@C6_outlier_is_rejected 4 2 7); lia.
Defined.

(** ** Finite stacks *)

Lemma column_finite (a : ndarray) (j : nat) :
  well_shaped a -> all_finite a -> (j < width a)%nat ->
  finite_samples (column j (rows a)).
Proof.
  intros Hw Hf Hj. unfold finite_samples, column.
  apply Forall_forall. intros x Hx. apply in_map_iff in Hx.
  destruct Hx as [r [<- Hr]].
  unfold all_finite in Hf. rewrite Forall_forall in Hf.
  specialize (Hf r Hr). rewrite Forall_forall in Hf. apply Hf.
  apply nth_In.
  unfold well_shaped in Hw. rewrite Forall_forall in Hw.
  rewrite (Hw r Hr). exact Hj.
Qed.

Lemma column_get2 (a : ndarray) (i j : nat) (x : float) :
  well_shaped a -> (j < width a)%nat ->
  nth_error (column j (rows a)) i = Some x -> get2 (rows a) i j = Some x.
Proof.
  intros Hw Hj H. unfold column in H. rewrite nth_error_map in H.
  unfold get2. destruct (nth_error (rows a) i) as [r|] eqn:Er; [|discriminate].
  simpl in H. injection H as <-.
  apply nth_error_nth'. rewrite (@well_shaped_row a i r Hw Er). exact Hj.
Qed.

Lemma filter_map_length (A B : Type) (p : B -> bool) (f : A -> B) (l : list A) :
  length (filter p (map f l)) = length (filter (fun x => p (f x)) l).
Proof.
  induction l as [|x l IH]; simpl; [reflexivity|].
  destruct (p (f x)); simpl; rewrite IH; reflexivity.
Qed.

Lemma all_rejected_no_survivor (clip_sigma : Q) (samples : list float) :
  forallb (fun b : bool => b) (map (rejected clip_sigma samples) samples) = true ->
  survivors clip_sigma samples = [].
Proof.
  intro H. rewrite forallb_forall in H.
  unfold survivors.
  destruct (filter (fun x => negb (rejected clip_sigma samples x)) samples)
    as [|x t] eqn:E; [reflexivity | exfalso].
  assert (Hx : In x (x :: t)) by (left; reflexivity).
  rewrite <- E in Hx. apply filter_In in Hx. destruct Hx as [Hin Hr].
  apply negb_true_iff in Hr.
  assert (rejected clip_sigma samples x = true).
  { apply H. apply in_map. exact Hin. }
  congruence.
Qed.

(** Not every sample of a pixel is rejected. *)
Lemma not_all_rejected (clip_sigma : Q) (samples : list float) :
  0 < clip_sigma -> finite_samples samples -> samples <> [] ->
  forallb (fun b : bool => b) (map (rejected clip_sigma samples) samples) = false.
Proof.
  intros Hc Hf Hne.
  destruct (forallb (fun b : bool => b)
              (map (rejected clip_sigma samples) samples)) eqn:E;
    [exfalso | reflexivity].
  apply all_rejected_no_survivor in E.
  exact (survivors_nonempty Hc Hf Hne E).
Qed.




Lemma feq_fle (x y : float) : is_nan x = false -> feq x y -> fle x y.
Proof.
  unfold fle. destruct x as [a| | |], y as [b| | |]; simpl;
    try contradiction; try discriminate; auto.
  intros _ H. apply Qle_bool_iff. lra.
Qed.




(** ** The store after the cells *)

(** Claim C8.  Run on a store in which [bits] names a stack, the cells end
    without raising; afterwards [bits] names the same stack with the same
    values, every array of the store before the run is unchanged, and the
    combined image is in an array that did not exist before the run, hence in
    none of the arrays of the stack. *)
Theorem C8_cells_leave_the_stack_unchanged
  (clip_sigma : Q) (h : heap) (bits : loc) (a : ndarray) :
  well_shaped a -> holds h bits (Float2 a) ->
  exists out h',
    cells clip_sigma bits h = Ok out h'
    /\ holds h' bits (Float2 a)
    /\ (forall l o, holds h l o -> holds h' l o)
    /\ (length h <= out)%nat
    /\ out <> bits
    /\ holds h' out (Float1 (clip_combine_at clip_sigma a)).
Proof.
  intros _ H. unfold holds in *.
  eexists. eexists. split; [apply cells_run; exact H|].
  split; [|split; [|split; [|split]]].
  - apply nth_error_app_l. exact H.
  - intros l o Hl. apply nth_error_app_l. exact Hl.
  - lia.
  - pose proof (@nth_error_lt h bits (Float2 a) H). lia.
  - rewrite nth_error_app_new. reflexivity.
Qed.

Lemma C8_witness :
  let a := mk_ndarray 1 [[Fin 1]; [Fin 1]; [Fin 1]; [Fin 5]] in
  exists out h',
    cells 10 0%nat [Float2 a] = Ok out h'
    /\ holds h' 0%nat (Float2 a)
    /\ (forall l o, holds [Float2 a] l o -> holds h' l o)
    /\ (1 <= out)%nat
    /\ out <> 0%nat
    /\ holds h' out (Float1 (clip_combine_at 10 a)).
Proof.
  intro a.
  apply (@C8_cells_leave_the_stack_unchanged 10 [Float2 a] 0%nat a).
  - repeat constructor.
  - reflexivity.
Defined.

Lemma empty_stack_all_nan (clip_sigma : Q) (w : nat) :
  clip_combine_at clip_sigma (mk_ndarray w []) = repeat NaN w.
Proof.
  unfold clip_combine_at, axis0. simpl.
  transitivity (repeat NaN (length (seq 0 w))).
  - apply map_const_repeat. intros j _. reflexivity.
  - rewrite length_seq. reflexivity.
Qed.

(** Claim C3, amended.  The cells validate nothing and raise nothing: run
    on a store in which [bits] names a two-dimensional array, they end with
    a combined image, and for a stack of no image that image is NaN at every
    pixel. *)
Theorem C3_cells_raise_nothing
  (clip_sigma : Q) (h : heap) (bits : loc) (a : ndarray) :
  well_shaped a -> holds h bits (Float2 a) ->
  exists out h',
    cells clip_sigma bits h = Ok out h'
    /\ holds h' out (Float1 (clip_combine_at clip_sigma a))
    /\ (rows a = [] ->
        clip_combine_at clip_sigma a = repeat NaN (width a)).
Proof.
  intros _ H. unfold holds in *.
  eexists. eexists. split; [apply cells_run; exact H|]. split.
  - rewrite nth_error_app_new. reflexivity.
  - intro E. destruct a as [w rs]. simpl in *. subst rs.
    apply empty_stack_all_nan.
Qed.

Lemma C3_witness :
  let a := mk_ndarray 3 [] in
  exists out h',
    cells 10 0%nat [Float2 a] = Ok out h'
    /\ holds h' out (Float1 (clip_combine_at 10 a))
    /\ (rows a = [] -> clip_combine_at 10 a = repeat NaN (width a)).
Proof.
  intro a.
  apply (@C3_cells_raise_nothing 10 [Float2 a] 0%nat a).
  - constructor.
  - reflexivity.
Defined.

(** Claim C3 as stated fails on the stack of no image: the cells raise
    nothing and bind [clip_combine] to an image of NaN. *)
Lemma C3_counterexample :
  let a := mk_ndarray 2 [] in
  well_shaped a /\ rows a = [] /\
  cells clip_sigma_default 0%nat [Float2 a] =
    Ok 5%nat [Float2 a; Float1 [NaN; NaN]; Float1 [NaN; NaN]; Bool2 [];
              Float1 []; Float1 [NaN; NaN]]
  /\ forall e, cells clip_sigma_default 0%nat [Float2 a] <> Raise e.
Proof.
  intro a. split; [|split; [|split]].
  - constructor.
  - reflexivity.
  - reflexivity.
  - intros e H. vm_compute in H. discriminate.
Qed.

(** * Matching a dark to a flat *)

Import Flats.

Unset Implicit Arguments.

(** ** The index of the first minimum *)

Lemma fleb_false_fle (x y : float) :
  is_nan x = false -> is_nan y = false -> fleb x y = false ->
  fle y x /\ fleb x y = false.
Proof. intros Hx Hy H. split; [apply fle_total; assumption | exact H]. Qed.

Lemma fle_fleb_trans_false (x y z : float) :
  fle x y -> fleb x z = false -> fleb y z = false.
Proof.
  intros Hxy Hxz. destruct (fleb y z) eqn:E; [|reflexivity].
  assert (fle x z) by (eapply fle_trans; eassumption).
  unfold fle in *. congruence.
Qed.

Lemma fleb_false_trans (x y z : float) :
  is_nan x = false -> is_nan y = false -> is_nan z = false ->
  fleb x y = false -> fleb y z = false -> fleb x z = false.
Proof.
  intros Hx Hy Hz Hxy Hyz.
  destruct (fleb x z) eqn:E; [|reflexivity].
  pose proof (@fle_total y z Hy Hz Hyz) as Hzy.
  assert (fle x y) by (eapply fle_trans; eassumption).
  unfold fle in *. congruence.
Qed.

Lemma argmin_from_bound (ip : list float) (min_ind : nat) (mp : float) (i : nat) :
  (min_ind < i)%nat -> (argmin_from min_ind mp i ip < i + length ip)%nat.
Proof.
  revert min_ind mp i. induction ip as [|x t IH]; intros min_ind mp i Hlt; simpl.
  - lia.
  - destruct (is_nan mp); [lia|].
    destruct (fleb mp x).
    + specialize (IH min_ind mp (S i)). lia.
    + specialize (IH i x (S i)). lia.
Qed.

Lemma np_argmin_bound (a : list float) (idx : nat) :
  np_argmin a = Some idx -> (idx < length a)%nat.
Proof.
  destruct a as [|x t]; simpl; [discriminate|].
  intro H. injection H as <-.
  pose proof (@argmin_from_bound t O x 1). lia.
Qed.

(** Without NaN the scan ends on the index it came with, and no later value
    is smaller, or on the first position of the smallest later value. *)
Lemma argmin_from_first_min (ip : list float) (min_ind : nat) (mp : float)
  (i : nat) :
  is_nan mp = false -> no_nan ip ->
  (argmin_from min_ind mp i ip = min_ind /\ Forall (fun x => fle mp x) ip)
  \/ exists k,
       argmin_from min_ind mp i ip = (i + k)%nat /\ (k < length ip)%nat
       /\ fleb mp (nth k ip NaN) = false
       /\ (forall j, (j < length ip)%nat -> fle (nth k ip NaN) (nth j ip NaN))
       /\ (forall j, (j < k)%nat -> fleb (nth j ip NaN) (nth k ip NaN) = false).
Proof.
  revert min_ind mp i.
  induction ip as [|x t IH]; intros min_ind mp i Hmp Hn; simpl.
  - left. split; [reflexivity | constructor].
  - apply no_nan_cons in Hn. destruct Hn as [Hx Ht].
    rewrite Hmp. destruct (fleb mp x) eqn:E.
    + destruct (IH min_ind mp (S i) Hmp Ht)
        as [[Hr Hall] | [k [Hr [Hk [Hlt [Hmin Hfirst]]]]]].
      * left. split; [exact Hr | constructor; assumption].
      * right. exists (S k). simpl.
        assert (Hkn : is_nan (nth k t NaN) = false).
        { eapply no_nan_In; [exact Ht | apply nth_In; exact Hk]. }
        split; [rewrite Hr; lia|]. split; [lia|]. split; [exact Hlt|]. split.
        -- intros [|j] Hj.
           ++ eapply fle_trans; [|exact E].
              apply fle_total; assumption.
           ++ apply Hmin. lia.
        -- intros [|j] Hj.
           ++ eapply fle_fleb_trans_false; [exact E | exact Hlt].
           ++ apply Hfirst. lia.
    + destruct (IH i x (S i) Hx Ht)
        as [[Hr Hall] | [k [Hr [Hk [Hlt [Hmin Hfirst]]]]]].
      * right. exists O. simpl.
        split; [rewrite Hr; lia|]. split; [lia|]. split; [exact E|]. split.
        -- intros [|j] Hj.
           ++ apply fle_refl. exact Hx.
           ++ rewrite Forall_forall in Hall. apply Hall. apply nth_In. lia.
        -- intros j Hj. lia.
      * right. exists (S k). simpl.
        assert (Hkn : is_nan (nth k t NaN) = false).
        { eapply no_nan_In; [exact Ht | apply nth_In; exact Hk]. }
        split; [rewrite Hr; lia|]. split; [lia|]. split.
        -- eapply fleb_false_trans; [exact Hmp | exact Hx | exact Hkn | exact E | exact Hlt].
        -- split.
           ++ intros [|j] Hj.
              ** apply fle_total; assumption.
              ** apply Hmin. lia.
           ++ intros [|j] Hj.
              ** exact Hlt.
              ** apply Hfirst. lia.
Qed.

(** [np.argmin] of values without NaN: the first index of the minimum. *)
Lemma np_argmin_first_min (a : list float) :
  no_nan a -> a <> [] ->
  exists idx,
    np_argmin a = Some idx /\ (idx < length a)%nat
    /\ (forall j, (j < length a)%nat -> fle (nth idx a NaN) (nth j a NaN))
    /\ (forall j, (j < idx)%nat -> fleb (nth j a NaN) (nth idx a NaN) = false).
Proof.
  intros Hn Hne. destruct a as [|x t]; [congruence|].
  apply no_nan_cons in Hn. destruct Hn as [Hx Ht].
  simpl np_argmin.
  destruct (@argmin_from_first_min t O x 1 Hx Ht)
    as [[Hr Hall] | [k [Hr [Hk [Hlt [Hmin Hfirst]]]]]].
  - exists O. rewrite Hr. split; [reflexivity|]. split; [simpl; lia|]. split.
    + intros [|j] Hj; simpl.
      * apply fle_refl. exact Hx.
      * rewrite Forall_forall in Hall. apply Hall. apply nth_In. simpl in Hj. lia.
    + intros j Hj. lia.
  - assert (Hkn : is_nan (nth k t NaN) = false).
    { eapply no_nan_In; [exact Ht | apply nth_In; exact Hk]. }
    exists (S k). rewrite Hr. split; [reflexivity|]. split; [simpl; lia|]. split.
    + intros [|j] Hj; simpl.
      * apply fle_total; assumption.
      * apply Hmin. simpl in Hj. lia.
    + intros [|j] Hj; simpl.
      * exact Hlt.
      * apply Hfirst. lia.
Qed.

(** ** The closest dark *)

Lemma dist_nan (e : float) : fabs (fsub NaN e) = NaN.
Proof. reflexivity. Qed.

Lemma dist_no_nan (e : Q) (darks : list float) :
  finite_samples darks ->
  no_nan (map (fun d => fabs (fsub d (Fin e))) darks).
Proof.
  intro Hf. apply no_nan_Forall. apply Forall_forall.
  intros x Hx. apply in_map_iff in Hx. destruct Hx as [d [<- Hd]].
  unfold finite_samples in Hf. rewrite Forall_forall in Hf.
  destruct (@is_finite_Fin d (Hf d Hd)) as [q ->]. reflexivity.
Qed.

Lemma finite_samples_nth_error (l : list float) (j : nat) (x : float) :
  finite_samples l -> nth_error l j = Some x -> exists q, x = Fin q.
Proof.
  intros Hf Hj. apply is_finite_Fin.
  unfold finite_samples in Hf. rewrite Forall_forall in Hf.
  apply Hf. eapply nth_error_In. exact Hj.
Qed.

(** The index [np.argmin] finds among finite exposure times: the first dark
    at the least distance from the exposure time [e]. *)
Lemma closest_index (e : Q) (darks : list float) :
  finite_samples darks -> darks <> [] ->
  exists idx q,
    np_argmin (map (fun d => fabs (fsub d (Fin e))) darks) = Some idx
    /\ nth_error darks idx = Some (Fin q)
    /\ nth idx darks NaN = Fin q
    /\ (forall j d, nth_error darks j = Some (Fin d) ->
          Qabs (q - e) <= Qabs (d - e))
    /\ (forall j d, (j < idx)%nat -> nth_error darks j = Some (Fin d) ->
          Qabs (q - e) < Qabs (d - e)).
Proof.
  intros Hf Hne.
  set (f := fun d => fabs (fsub d (Fin e))).
  assert (Hmne : map f darks <> []) by (destruct darks; simpl; congruence).
  destruct (np_argmin_first_min (map f darks) (dist_no_nan e darks Hf) Hmne)
    as [idx [Hidx [Hlt [Hmin Hfirst]]]].
  rewrite length_map in Hlt, Hmin.
  assert (Hnth : forall j, nth j (map f darks) NaN = f (nth j darks NaN)).
  { intro j. change NaN with (f NaN) at 1. apply map_nth. }
  destruct (@finite_samples_nth darks idx Hf Hlt) as [q Hq].
  exists idx, q. split; [exact Hidx|]. split.
  { rewrite <- Hq. apply nth_error_nth'. exact Hlt. }
  split; [exact Hq|]. split.
  - intros j d Hj.
    assert (Hjl : (j < length darks)%nat) by (apply nth_error_Some; congruence).
    specialize (Hmin j Hjl). rewrite !Hnth, Hq in Hmin.
    rewrite (nth_error_nth _ _ NaN Hj) in Hmin.
    unfold fle, f in Hmin. cbn [fsub fabs fleb] in Hmin.
    apply Qle_bool_iff in Hmin. exact Hmin.
  - intros j d Hji Hj.
    specialize (Hfirst j Hji). rewrite !Hnth, Hq in Hfirst.
    rewrite (nth_error_nth _ _ NaN Hj) in Hfirst.
    unfold f in Hfirst. cbn [fsub fabs fleb] in Hfirst.
    apply Qle_bool_false in Hfirst. exact Hfirst.
Qed.

Lemma Qabs_swap (a b : Q) : Qabs (a - b) == Qabs (b - a).
Proof. rewrite (Qabs_Qminus a b). reflexivity. Qed.







(** X4.  The dark that [find_nearest_dark_exposure] returns does not
    depend on the tolerance: what it returns with one tolerance it returns
    with every larger tolerance and with no tolerance. *)
Theorem find_nearest_result_independent_of_tolerance
  (a_flat : option CCDData) (image : CCDData) (darks : list float)
  (t t' : Q) (c : float) :
  t <= t' ->
  find_nearest_dark_exposure a_flat image darks (Some (Fin t)) = Return c ->
  find_nearest_dark_exposure a_flat image darks (Some (Fin t')) = Return c
  /\ find_nearest_dark_exposure a_flat image darks None = Return c.
Proof.
  intros Ht. unfold find_nearest_dark_exposure.
  destruct (header image "exptime"%string) as [exptime|]; [|discriminate].
  destruct (np_argmin (map (fun d => fabs (fsub d exptime)) darks)) as [idx|];
    [|discriminate].
  destruct (fgtb (fabs (fsub exptime (nth idx darks NaN))) (Fin t)) eqn:E.
  - destruct a_flat as [flat|]; [|discriminate].
    destruct (header flat "exptime"%string); discriminate.
  - intro H. split; [|exact H].
    destruct (fgtb (fabs (fsub exptime (nth idx darks NaN))) (Fin t')) eqn:E';
      [|exact H].
    rewrite (@fgtb_threshold_mono _ t t' Ht E') in E. discriminate.
Qed.

Lemma X4_witness :
  let image := mk_CCDData (fun _ => Some (Fin 90)) (mk_ndarray 0 []) in
  find_nearest_dark_exposure None image [Fin 7; Fin 70; Fin 300]
    (Some (Fin 100)) = Return (Fin 70)
  /\ find_nearest_dark_exposure None image [Fin 7; Fin 70; Fin 300] None
     = Return (Fin 70).
Proof.
  intro image.
  apply (find_nearest_result_independent_of_tolerance None image
           [Fin 7; Fin 70; Fin 300] 20 100 (Fin 70)).
  - discriminate.
  - reflexivity.
Defined.

(** X5.  An image whose exposure time is among the dark exposure times is
    given that exposure time, with every tolerance that is not negative. *)
Theorem find_nearest_exact_match
  (a_flat : option CCDData) (image : CCDData) (darks : list float)
  (e e' t : Q) :
  header image "exptime"%string = Some (Fin e) ->
  finite_samples darks -> In (Fin e') darks -> e' == e -> 0 <= t ->
  exists q,
    find_nearest_dark_exposure a_flat image darks (Some (Fin t)) =
      Return (Fin q)
    /\ q == e.
Proof.
  intros He Hf Hin Hee Ht.
  assert (Hne : darks <> []) by (intro E; rewrite E in Hin; exact Hin).
  destruct (closest_index e darks Hf Hne) as [idx [q [Hidx [Hn [Hq [Hmin _]]]]]].
  apply In_nth_error in Hin. destruct Hin as [j Hj].
  specialize (Hmin j e' Hj).
  assert (Hz : Qabs (e' - e) == 0).
  { apply Qabs_case; intros; lra. }
  assert (Hqe : q == e).
  { revert Hmin. rewrite Hz. apply Qabs_case; intros; lra. }
  exists q. split; [|exact Hqe].
  unfold find_nearest_dark_exposure. rewrite He, Hidx, Hq.
  assert (Et : fgtb (fabs (fsub (Fin e) (Fin q))) (Fin t) = false).
  { cbn [fsub fabs fgtb]. apply Qlt_bool_false.
    apply Qabs_case; intros; lra. }
  rewrite Et. reflexivity.
Qed.

Lemma X5_witness :
  let image := mk_CCDData (fun _ => Some (Fin 70)) (mk_ndarray 0 []) in
  exists q,
    find_nearest_dark_exposure None image [Fin 7; Fin 70; Fin 300]
      (Some (Fin 0)) = Return (Fin q)
    /\ q == 70.
Proof.
  intro image.
  apply (find_nearest_exact_match None image [Fin 7; Fin 70; Fin 300] 70 70 0).
  - reflexivity.
  - repeat constructor.
  - right. left. reflexivity.
  - reflexivity.
  - discriminate.
Defined.

(** ** The dictionary of the combined darks *)

Lemma float_eqb_sym (x y : float) : float_eqb x y = float_eqb y x.
Proof.
  destruct x as [a| | |], y as [b| | |]; simpl; auto.
  destruct (Qeq_bool a b) eqn:E, (Qeq_bool b a) eqn:E'; auto; qcases.
  - exfalso. apply E'. symmetry. exact E.
  - exfalso. apply E. symmetry. exact E'.
Qed.

Lemma float_eqb_congr (x y z : float) :
  float_eqb x y = true -> float_eqb x z = float_eqb y z.
Proof.
  destruct x as [a| | |], y as [b| | |], z as [c| | |]; simpl;
    try discriminate; auto.
  intro H. apply Qeq_bool_iff in H.
  destruct (Qeq_bool a c) eqn:E, (Qeq_bool b c) eqn:E'; auto; qcases.
  - exfalso. apply E'. rewrite <- H. exact E.
  - exfalso. apply E. rewrite H. exact E'.
Qed.

Lemma dict_get_set (V : Type) (d : Dict V) (k c : float) (v : V) :
  dict_get (dict_set d k v) c =
  if float_eqb k c then Some v else dict_get d c.
Proof.
  induction d as [|[k' v'] t IH]; simpl.
  - reflexivity.
  - destruct (float_eqb k' k) eqn:E; simpl.
    + rewrite (float_eqb_congr k' k c E).
      destruct (float_eqb k c); reflexivity.
    + destruct (float_eqb k' c) eqn:E'.
      * destruct (float_eqb k c) eqn:E''; [|reflexivity].
        rewrite float_eqb_sym in E''.
        rewrite float_eqb_sym in E'.
        rewrite (float_eqb_congr c k k' E'') in E'.
        rewrite float_eqb_sym in E'. congruence.
      * exact IH.
Qed.

Lemma fold_last_acc (c : float) (ccds : list CCDData) (acc : option CCDData) :
  fold_left (last_step c) ccds acc =
  match fold_left (last_step c) ccds None with
  | Some v => Some v
  | None => acc
  end.
Proof.
  revert acc. induction ccds as [|ccd t IH]; intro acc; simpl.
  - reflexivity.
  - rewrite (IH (last_step c acc ccd)), (IH (last_step c None ccd)).
    destruct (fold_left (last_step c) t None); [reflexivity|].
    unfold last_step. destruct (header ccd "exptime"%string) as [e|]; [|reflexivity].
    destruct (float_eqb e c); reflexivity.
Qed.

Lemma dict_of_ccds_get (ccds : list CCDData) (d d' : Dict CCDData) (c : float) :
  dict_of_ccds d ccds = Return d' ->
  dict_get d' c =
  match fold_left (last_step c) ccds None with
  | Some v => Some v
  | None => dict_get d c
  end.
Proof.
  revert d. induction ccds as [|ccd t IH]; intros d H; simpl in *.
  - injection H as <-. reflexivity.
  - destruct (header ccd "exptime"%string) as [k|] eqn:Ek; [|discriminate].
    rewrite (IH _ H), dict_get_set.
    rewrite (fold_last_acc c t (last_step c None ccd)).
    destruct (fold_left (last_step c) t None); [reflexivity|].
    unfold last_step. rewrite Ek.
    destruct (float_eqb k c); reflexivity.
Qed.

(** X6.  [combined_darks[k]] is the last image of the collection whose
    exposure time equals [k], and a [KeyError] when there is none. *)
Theorem combined_darks_lookup_is_last_with_exposure
  (ccds : list CCDData) (d : Dict CCDData) (k : float) :
  combined_darks_of ccds = Return d ->
  dict_get d k = last_with_exposure k ccds.
Proof.
  intro H. unfold combined_darks_of in H.
  rewrite (dict_of_ccds_get ccds [] d k H).
  unfold last_with_exposure.
  destruct (fold_left (last_step k) ccds None); reflexivity.
Qed.

Lemma X6_witness :
  let dark e := mk_CCDData (fun _ => Some (Fin e)) (mk_ndarray 1 [[Fin e]]) in
  dict_get [(Fin 7, dark 7); (Fin 70, dark 70%Q); (Fin 300, dark 300)] (Fin 70)
  = last_with_exposure (Fin 70) [dark 7; dark 70; dark 300].
Proof.
  intro dark.
  apply (combined_darks_lookup_is_last_with_exposure
           [dark 7; dark 70; dark 300]
           [(Fin 7, dark 7); (Fin 70, dark 70); (Fin 300, dark 300)] (Fin 70)).
  reflexivity.
Defined.

Lemma fold_last_inv (c : float) (ccds : list CCDData)
  (acc r : option CCDData) :
  fold_left (last_step c) ccds acc = r ->
  r = acc
  \/ exists dark e,
       r = Some dark /\ In dark ccds
       /\ header dark "exptime"%string = Some e /\ float_eqb e c = true.
Proof.
  revert acc. induction ccds as [|ccd t IH]; intros acc H; simpl in H.
  - left. symmetry. exact H.
  - destruct (IH _ H) as [-> | [dark [e [Hr [Hin [He Hc]]]]]].
    + unfold last_step.
      destruct (header ccd "exptime"%string) as [e|] eqn:Ee; [|left; reflexivity].
      destruct (float_eqb e c) eqn:Ec; [|left; reflexivity].
      right. exists ccd, e. repeat split; auto. left. reflexivity.
    + right. exists dark, e. repeat split; auto. right. exact Hin.
Qed.

Lemma fold_last_found (c : float) (ccds : list CCDData) (acc : option CCDData) :
  (acc <> None
   \/ exists ccd e, In ccd ccds /\ header ccd "exptime"%string = Some e
                    /\ float_eqb e c = true) ->
  fold_left (last_step c) ccds acc <> None.
Proof.
  revert acc. induction ccds as [|ccd t IH]; intros acc H; simpl.
  - destruct H as [H | [ccd [e [[] _]]]]. exact H.
  - apply IH. destruct H as [H | [ccd' [e [[<- | Hin] [He Hc]]]]].
    + left. unfold last_step.
      destruct (header ccd "exptime"%string) as [e|]; [|exact H].
      destruct (float_eqb e c); [discriminate | exact H].
    + left. unfold last_step. rewrite He, Hc. discriminate.
    + right. exists ccd', e. auto.
Qed.

(** X7.  When the dark exposure times handed to
    [find_nearest_dark_exposure] are exposure times of the combined darks,
    the value it returns is a key of [combined_darks]:
    [combined_darks[closest_dark]] raises no [KeyError] and is a combined
    dark with that exposure time. *)
Theorem closest_dark_is_a_key_of_combined_darks
  (a_flat : option CCDData) (image : CCDData) (ccds : list CCDData)
  (d : Dict CCDData) (times : list float) (tolerance : option float)
  (closest_dark : float) :
  combined_darks_of ccds = Return d ->
  (forall x, In x times ->
     exists ccd e, In ccd ccds /\ header ccd "exptime"%string = Some e
                   /\ float_eqb e x = true) ->
  find_nearest_dark_exposure a_flat image times tolerance = Return closest_dark ->
  exists dark e,
    dict_get d closest_dark = Some dark /\ In dark ccds
    /\ header dark "exptime"%string = Some e
    /\ float_eqb e closest_dark = true.
Proof.
  intros Hd Htimes Hr.
  assert (Hin : In closest_dark times).
  { unfold find_nearest_dark_exposure in Hr.
    destruct (header image "exptime"%string) as [exptime|]; [|discriminate].
    destruct (np_argmin (map (fun x => fabs (fsub x exptime)) times))
      as [idx|] eqn:Ei; [|discriminate].
    apply np_argmin_bound in Ei. rewrite length_map in Ei.
    destruct (match tolerance with
              | Some t => fgtb (fabs (fsub exptime (nth idx times NaN))) t
              | None => false
              end).
    - destruct a_flat as [flat|]; [|discriminate].
      destruct (header flat "exptime"%string); discriminate.
    - injection Hr as <-. apply nth_In. exact Ei. }
  unfold combined_darks_of in Hd.
  rewrite (dict_of_ccds_get ccds [] d closest_dark Hd).
  destruct (fold_left (last_step closest_dark) ccds None) as [dark|] eqn:E.
  - destruct (fold_last_inv closest_dark ccds None (Some dark) E)
      as [H | [dark' [e [Hs [Hi [He Hc]]]]]]; [discriminate|].
    injection Hs as <-. exists dark, e. auto.
  - exfalso. revert E. apply fold_last_found. right. apply Htimes. exact Hin.
Qed.

Lemma X7_witness :
  let dark e := mk_CCDData (fun _ => Some (Fin e)) (mk_ndarray 1 [[Fin e]]) in
  exists found e,
    dict_get [(Fin 7, dark 7); (Fin 70, dark 70); (Fin 300, dark 300)] (Fin 70)
      = Some found
    /\ In found [dark 7; dark 70; dark 300]
    /\ header found "exptime"%string = Some e
    /\ float_eqb e (Fin 70) = true.
Proof.
  intro dark.
  apply (closest_dark_is_a_key_of_combined_darks None (dark 90)
           [dark 7; dark 70; dark 300]
           [(Fin 7, dark 7); (Fin 70, dark 70); (Fin 300, dark 300)]
           [Fin 300; Fin 7; Fin 70] (Some (Fin 100)) (Fin 70)).
  - reflexivity.
  - intros x [<- | [<- | [<- | []]]].
    + exists (dark 300), (Fin 300). simpl. auto.
    + exists (dark 7), (Fin 7). simpl. auto.
    + exists (dark 70), (Fin 70). simpl. auto 6.
  - reflexivity.
Defined.

(** ** The check of the combined darks *)

Lemma exposure_times_length (headers : list Header) (actual : list float) :
  exposure_times headers = Return actual -> length actual = length headers.
Proof.
  revert actual. induction headers as [|h t IH]; intros actual H; simpl in H.
  - injection H as <-. reflexivity.
  - destruct (h "exptime"%string); [|discriminate].
    destruct (exposure_times t) as [l|]; [|discriminate].
    injection H as <-. simpl. rewrite (IH l eq_refl). reflexivity.
Qed.

Lemma set_mem_In (x : float) (s : list float) :
  set_mem x s = true <-> exists y, In y s /\ float_eqb y x = true.
Proof. unfold set_mem. apply existsb_exists. Qed.

Lemma set_diff_nil (s t : list float) :
  set_diff s t = [] <-> forall x, In x s -> set_mem x t = true.
Proof.
  unfold set_diff. induction s as [|x s IH]; simpl.
  - split; [intros _ y [] | reflexivity].
  - destruct (set_mem x t) eqn:E; simpl.
    + rewrite IH. split.
      * intros H y [<- | Hy]; auto.
      * intros H y Hy. apply H. right. exact Hy.
    + split; [discriminate|].
      intro H. specialize (H x (or_introl eq_refl)). congruence.
Qed.

Lemma float_eqb_canon (x y : float) :
  float_eqb x y = true <-> canon x = canon y /\ is_nan x = false.
Proof.
  destruct x as [a| | |], y as [b| | |]; simpl;
    try (split; [discriminate | intros [H _]; discriminate]);
    try (split; [auto | reflexivity]);
    try (split; [discriminate | intros [_ H]; discriminate]).
  split.
  - intro H. apply Qeq_bool_iff in H. split; [|reflexivity].
    f_equal. apply Qred_complete. exact H.
  - intros [H _]. injection H as H. apply Qeq_bool_iff.
    rewrite <- (Qred_correct a), <- (Qred_correct b), H. reflexivity.
Qed.

Lemma distinct_times_NoDup (l : list float) :
  distinct_times l -> Forall (fun x => is_nan x = false) l ->
  NoDup (map canon l).
Proof.
  induction l as [|x t IH]; simpl; intros Hd Hn.
  - constructor.
  - destruct Hd as [Hx Ht]. inversion Hn as [|? ? Hxn Htn]; subst.
    constructor; [|apply IH; assumption].
    intro Hin. apply in_map_iff in Hin. destruct Hin as [y [Hy Hyt]].
    assert (E : set_mem x t = true).
    { apply set_mem_In. exists y. split; [exact Hyt|].
      apply float_eqb_canon. split; [exact Hy|].
      rewrite Forall_forall in Htn. apply Htn. exact Hyt. }
    congruence.
Qed.

(** The check returns exactly when the number of combined darks is the
    expected one, every header has an exposure time, and every expected
    exposure time is among them. *)
Lemma check_combined_darks_returns (n : nat) (expected : list float)
  (headers : list Header) (actual : list float) :
  check_combined_darks n expected headers = Return actual <->
  length headers = n /\ exposure_times headers = Return actual
  /\ forall x, In x expected -> set_mem x actual = true.
Proof.
  unfold check_combined_darks. split.
  - destruct (length headers <? n)%nat eqn:E1; [discriminate|].
    destruct (n <? length headers)%nat eqn:E2; [discriminate|].
    apply Nat.ltb_ge in E1, E2.
    destruct (exposure_times headers) as [l|]; [|discriminate].
    destruct (set_diff expected l) eqn:Ed; [|discriminate].
    intro H. injection H as <-. split; [lia|]. split; [reflexivity|].
    apply set_diff_nil. exact Ed.
  - intros [Hn [He Hall]]. subst n.
    rewrite Nat.ltb_irrefl, He.
    apply set_diff_nil in Hall. rewrite Hall. reflexivity.
Qed.

(** X8.  When the check of the combined darks passes and the expected
    exposure times are as many as the expected darks and pairwise different,
    the exposure times of the combined darks are the expected ones: each
    expected time is the exposure time of a dark, and no dark has another
    exposure time. *)
Theorem check_combined_darks_exposure_times_are_the_expected
  (n : nat) (expected : list float) (headers : list Header)
  (actual : list float) :
  length expected = n -> distinct_times expected ->
  check_combined_darks n expected headers = Return actual ->
  length headers = n
  /\ (forall x, In x expected -> set_mem x actual = true)
  /\ (forall y, In y actual -> set_mem y expected = true)
  /\ set_diff actual expected = [].
Proof.
  intros Hlen Hdist Hc.
  apply check_combined_darks_returns in Hc. destruct Hc as [Hn [He Hsub]].
  pose proof (exposure_times_length headers actual He) as Hla.
  assert (Hnn : Forall (fun x => is_nan x = false) expected).
  { apply Forall_forall. intros x Hx.
    specialize (Hsub x Hx). apply set_mem_In in Hsub.
    destruct Hsub as [y [_ Hy]].
    rewrite float_eqb_sym in Hy. apply float_eqb_canon in Hy. tauto. }
  assert (Hincl : incl (map canon expected) (map canon actual)).
  { intros x' Hx'. apply in_map_iff in Hx'. destruct Hx' as [x [<- Hx]].
    specialize (Hsub x Hx). apply set_mem_In in Hsub.
    destruct Hsub as [y [Hy Hyx]].
    apply float_eqb_canon in Hyx. destruct Hyx as [<- _].
    apply in_map. exact Hy. }
  assert (Hback : incl (map canon actual) (map canon expected)).
  { apply NoDup_length_incl.
    - apply distinct_times_NoDup; assumption.
    - rewrite !length_map. lia.
    - exact Hincl. }
  assert (Hall : forall y, In y actual -> set_mem y expected = true).
  { intros y Hy.
    assert (Hcy : In (canon y) (map canon expected))
      by (apply Hback, in_map, Hy).
    apply in_map_iff in Hcy. destruct Hcy as [x [Hxy Hx]].
    apply set_mem_In. exists x. split; [exact Hx|].
    apply float_eqb_canon. split; [exact Hxy|].
    rewrite Forall_forall in Hnn. apply Hnn. exact Hx. }
  split; [exact Hn|]. split; [exact Hsub|]. split; [exact Hall|].
  apply set_diff_nil. exact Hall.
Qed.

Lemma X8_witness :
  let h e : Header := fun _ => Some (Fin e) in
  length [h 70; h 300; h 7] = 3%nat
  /\ (forall x, In x [Fin 7; Fin 70; Fin 300] ->
        set_mem x [Fin 70; Fin 300; Fin 7] = true)
  /\ (forall y, In y [Fin 70; Fin 300; Fin 7] ->
        set_mem y [Fin 7; Fin 70; Fin 300] = true)
  /\ set_diff [Fin 70; Fin 300; Fin 7] [Fin 7; Fin 70; Fin 300] = [].
Proof.
  intro h.
  apply (check_combined_darks_exposure_times_are_the_expected 3
           [Fin 7; Fin 70; Fin 300] [h 70; h 300; h 7]
           [Fin 70; Fin 300; Fin 7]).
  - reflexivity.
  - simpl. auto.
  - reflexivity.
Defined.

(** * The median and the plain average under outliers *)

(** ** Order statistics *)

Lemma filter_suffix_count (A : Type) (p : A -> bool) (l : list A) (k : nat) (d : A) :
  (forall i, (k <= i < length l)%nat -> p (nth i l d) = true) ->
  (length l - k <= length (filter p l))%nat.
Proof.
  revert k. induction l as [|x t IH]; intros k H; simpl; [lia|].
  destruct k as [|k].
  - assert (Hx : p x = true) by (apply (H O); simpl; lia).
    rewrite Hx. simpl.
    assert (length t - 0 <= length (filter p t))%nat; [|lia].
    apply IH. intros i Hi. apply (H (S i)). simpl. lia.
  - assert (length t - k <= length (filter p t))%nat.
    { apply IH. intros i Hi. apply (H (S i)). simpl. lia. }
    destruct (p x); simpl; lia.
Qed.

Lemma filter_length_le (A : Type) (p : A -> bool) (l : list A) :
  (length (filter p l) <= length l)%nat.
Proof.
  induction l as [|x t IH]; simpl; [lia|]. destruct (p x); simpl; lia.
Qed.

Lemma filter_disjoint_length (A : Type) (p q : A -> bool) (l : list A) :
  (forall x, In x l -> p x = true -> q x = false) ->
  (length (filter p l) + length (filter q l) <= length l)%nat.
Proof.
  induction l as [|x t IH]; intro H; simpl; [lia|].
  assert (IH' : (length (filter p t) + length (filter q t) <= length t)%nat).
  { apply IH. intros y Hy. apply H. right. exact Hy. }
  destruct (p x) eqn:Ep.
  - rewrite (H x (or_introl eq_refl) Ep). simpl. lia.
  - destruct (q x); simpl; lia.
Qed.

Lemma sort_no_nan (a : list float) : no_nan a -> no_nan (sort a).
Proof. intro H. eapply no_nan_perm; [apply sort_perm | exact H]. Qed.

(** If at most [k] samples are below [lo], the sample of rank [k] is not. *)
Lemma rank_lower_bound (a : list float) (lo : float) (k : nat) :
  no_nan a -> is_nan lo = false -> (k < length a)%nat ->
  (length (filter (fun x => negb (fleb lo x)) a) <= k)%nat ->
  fle lo (nth k (sort a) NaN).
Proof.
  intros Hn Hlo Hk Hc.
  destruct (fleb lo (nth k (sort a) NaN)) eqn:E; [exact E | exfalso].
  rewrite (filter_length_perm _ (sort_perm a)) in Hc.
  assert (Hks : (k < length (sort a))%nat) by (rewrite sort_length; exact Hk).
  pose proof (@filter_prefix_count _ (fun x => negb (fleb lo x)) (sort a) k NaN Hks)
    as Hp.
  assert (k + 1 <= length (filter (fun x => negb (fleb lo x)) (sort a)))%nat; [|lia].
  apply Hp. intros i Hi. apply negb_true_iff.
  destruct (fleb lo (nth i (sort a) NaN)) eqn:Ei; [|reflexivity].
  assert (Hle : fle (nth i (sort a) NaN) (nth k (sort a) NaN)).
  { apply sorted_nth_le; [apply sort_sorted; exact Hn | apply sort_no_nan; exact Hn | lia]. }
  assert (fle lo (nth k (sort a) NaN)) by (eapply fle_trans; eassumption).
  unfold fle in *. congruence.
Qed.

(** If fewer than [length a - k] samples are above [hi], the sample of rank
    [k] is not. *)
Lemma rank_upper_bound (a : list float) (hi : float) (k : nat) :
  no_nan a -> is_nan hi = false -> (k < length a)%nat ->
  (length (filter (fun x => negb (fleb x hi)) a) < length a - k)%nat ->
  fle (nth k (sort a) NaN) hi.
Proof.
  intros Hn Hhi Hk Hc.
  destruct (fleb (nth k (sort a) NaN) hi) eqn:E; [exact E | exfalso].
  rewrite (filter_length_perm _ (sort_perm a)) in Hc.
  pose proof (@filter_suffix_count _ (fun x => negb (fleb x hi)) (sort a) k NaN)
    as Hp.
  rewrite sort_length in Hp.
  assert (length a - k <= length (filter (fun x => negb (fleb x hi)) (sort a)))%nat;
    [|lia].
  apply Hp. intros i Hi. apply negb_true_iff.
  destruct (fleb (nth i (sort a) NaN) hi) eqn:Ei; [|reflexivity].
  assert (Hle : fle (nth k (sort a) NaN) (nth i (sort a) NaN)).
  { apply sorted_nth_le; [apply sort_sorted; exact Hn | apply sort_no_nan; exact Hn|].
    rewrite sort_length. lia. }
  assert (fle (nth k (sort a) NaN) hi) by (eapply fle_trans; eassumption).
  unfold fle in *. congruence.
Qed.

Lemma fle_between_finite (x : float) (lo hi : Q) :
  fle (Fin lo) x -> fle x (Fin hi) -> exists q, x = Fin q /\ lo <= q <= hi.
Proof.
  unfold fle. destruct x as [q| | |]; simpl; try discriminate.
  intros H1 H2. apply Qle_bool_iff in H1, H2. eauto.
Qed.

(** The median lies in [[lo, hi]] when fewer than half of the samples are
    below [lo] and fewer than half are above [hi]. *)
Lemma median_between (a : list float) (lo hi : Q) :
  no_nan a -> a <> [] ->
  (length (filter (fun x => negb (fleb (Fin lo) x)) a) <= (length a - 1) / 2)%nat ->
  (length (filter (fun x => negb (fleb x (Fin hi))) a) <= (length a - 1) / 2)%nat ->
  exists m, np_median a = Fin m /\ lo <= m <= hi.
Proof.
  intros Hn Hne Hlo Hhi.
  assert (Hl : (0 < length a)%nat) by (destruct a; simpl; [congruence | lia]).
  destruct (Nat.odd (length a)) eqn:Hodd.
  - pose proof (odd_half _ Hodd) as Hh.
    assert (Hk : ((length a - 1) / 2 = length a / 2)%nat).
    { rewrite Hh at 1. replace (2 * (length a / 2) + 1 - 1)%nat
        with ((length a / 2) * 2)%nat by lia.
      apply Nat.div_mul. lia. }
    rewrite Hk in Hlo, Hhi.
    assert (Hkl : (length a / 2 < length a)%nat) by lia.
    pose proof (rank_lower_bound a (Fin lo) _ Hn eq_refl Hkl Hlo) as H1.
    assert (H2 : fle (nth (length a / 2) (sort a) NaN) (Fin hi)).
    { apply rank_upper_bound; auto. lia. }
    destruct (fle_between_finite _ lo hi H1 H2) as [q [Hq Hb]].
    rewrite (np_median_odd Hn Hodd), Hq.
    eexists. split; [reflexivity|].
    simpl. unfold Qdiv. change (/ inject_Z 1) with 1. lra.
  - pose proof (even_half _ Hodd) as Hh.
    assert (Hk : ((length a - 1) / 2 = length a / 2 - 1)%nat).
    { symmetry. apply Nat.div_unique with (r := 1%nat); lia. }
    rewrite Hk in Hlo, Hhi.
    assert (Hk1 : (length a / 2 - 1 < length a)%nat) by lia.
    assert (Hk2 : (length a / 2 < length a)%nat) by lia.
    pose proof (rank_lower_bound a (Fin lo) _ Hn eq_refl Hk1 Hlo) as H1.
    assert (H2 : fle (nth (length a / 2) (sort a) NaN) (Fin hi)).
    { apply rank_upper_bound; auto. lia. }
    assert (H12 : fle (nth (length a / 2 - 1) (sort a) NaN)
                      (nth (length a / 2) (sort a) NaN)).
    { apply sorted_nth_le;
        [apply sort_sorted; exact Hn | apply sort_no_nan; exact Hn|].
      rewrite sort_length. lia. }
    destruct (fle_between_finite _ lo hi H1 (fle_trans H12 H2)) as [p [Hp Hpb]].
    destruct (fle_between_finite _ lo hi (fle_trans H1 H12) H2) as [q [Hq Hqb]].
    rewrite (np_median_even Hn Hodd Hne), Hp, Hq.
    eexists. split; [reflexivity|].
    simpl. unfold Qdiv. change (/ inject_Z 2) with (1 # 2). lra.
Qed.

(** ** Outliers written into one image *)

Lemma set_range_length (lo hi : nat) (v : float) (row : list float) :
  length (set_range lo hi v row) = length row.
Proof.
  revert lo hi. induction row as [|x t IH]; intros lo hi; simpl; [reflexivity|].
  destruct lo, hi; simpl; try rewrite IH; reflexivity.
Qed.

Lemma set_range_nth (lo hi : nat) (v : float) (row : list float) (j : nat) :
  (j < length row)%nat ->
  nth j (set_range lo hi v row) NaN =
  if in_slice lo hi j then v else nth j row NaN.
Proof.
  unfold in_slice.
  revert lo hi j. induction row as [|x t IH]; intros lo hi j Hj; simpl in Hj;
    [lia|].
  destruct lo as [|lo], hi as [|hi]; simpl set_range.
  - rewrite andb_false_r. reflexivity.
  - destruct j as [|j]; [reflexivity|].
    simpl nth. rewrite IH by lia. reflexivity.
  - rewrite andb_false_r. reflexivity.
  - destruct j as [|j]; [reflexivity|].
    simpl nth. rewrite IH by lia. reflexivity.
Qed.

Lemma set_nth_same (A : Type) (i : nat) (x : A) (l : list A) :
  nth_error l i = Some x -> set_nth i x l = l.
Proof.
  revert i. induction l as [|y t IH]; intros [|i] H; simpl in *;
    try discriminate; try reflexivity.
  - congruence.
  - rewrite IH by exact H. reflexivity.
Qed.

Lemma nth_error_set_nth_other (A : Type) (i k : nat) (v : A) (l : list A) :
  k <> i -> nth_error (set_nth i v l) k = nth_error l k.
Proof.
  revert i k. induction l as [|y t IH]; intros [|i] [|k] H; simpl;
    try reflexivity; try congruence.
  apply IH. congruence.
Qed.

Lemma setitem_row_slice_rows (i lo hi : nat) (v : float) (a a' : ndarray) :
  setitem_row_slice i lo hi v a = Some a' ->
  exists row,
    nth_error (rows a) i = Some row
    /\ a' = mk_ndarray (width a) (set_nth i (set_range lo hi v row) (rows a)).
Proof.
  unfold setitem_row_slice. destruct (nth_error (rows a) i) as [row|]; [|discriminate].
  intro H. injection H as <-. eauto.
Qed.

Lemma setitem_row_slice_well_shaped (i lo hi : nat) (v : float) (a a' : ndarray) :
  well_shaped a -> setitem_row_slice i lo hi v a = Some a' -> well_shaped a'.
Proof.
  intros Hw H. destruct (setitem_row_slice_rows _ _ _ _ _ _ H) as [row [Hr ->]].
  unfold well_shaped in *. simpl. rewrite Forall_forall in *.
  intros r Hin. apply In_set_nth in Hin. destruct Hin as [-> | Hin].
  - rewrite set_range_length. apply Hw. eapply nth_error_In. exact Hr.
  - apply Hw. exact Hin.
Qed.

(** The samples of a pixel after the assignment: those of before, with the
    sample of image [i] replaced when the pixel is in the slice. *)
Lemma setitem_row_slice_column (i lo hi : nat) (v : float) (a a' : ndarray)
  (j : nat) :
  well_shaped a -> (j < width a)%nat ->
  setitem_row_slice i lo hi v a = Some a' ->
  column j (rows a') =
  if in_slice lo hi j then set_nth i v (column j (rows a))
  else column j (rows a).
Proof.
  intros Hw Hj H.
  destruct (setitem_row_slice_rows _ _ _ _ _ _ H) as [row [Hr ->]].
  simpl rows. unfold column. rewrite map_set_nth.
  rewrite set_range_nth by (rewrite (@well_shaped_row a i row Hw Hr); exact Hj).
  destruct (in_slice lo hi j); [reflexivity|].
  apply set_nth_same. rewrite nth_error_map, Hr. reflexivity.
Qed.

(** X9.  [bits[i, lo:hi] = v] keeps the shape of the stack, changes no
    sample outside the columns [lo..hi-1] of image [i], and leaves the plain
    average, the median, the scale and the clipped average of every pixel
    outside the slice as they were. *)
Theorem slice_assignment_is_local
  (i lo hi : nat) (v : float) (a a' : ndarray) (clip_sigma : Q) :
  well_shaped a ->
  setitem_row_slice i lo hi v a = Some a' ->
  well_shaped a' /\ width a' = width a
  /\ length (rows a') = length (rows a)
  /\ (forall k j, k <> i \/ in_slice lo hi j = false ->
        (j < width a)%nat -> get2 (rows a') k j = get2 (rows a) k j)
  /\ (forall j, in_slice lo hi j = false -> (j < width a)%nat ->
        nth_error (average_of a') j = nth_error (average_of a) j
        /\ nth_error (median_of a') j = nth_error (median_of a) j
        /\ nth_error (mad_sigma_of a') j = nth_error (mad_sigma_of a) j
        /\ nth_error (clip_combine_at clip_sigma a') j =
           nth_error (clip_combine_at clip_sigma a) j).
Proof.
  intros Hw H.
  pose proof (setitem_row_slice_well_shaped _ _ _ _ _ _ Hw H) as Hw'.
  destruct (setitem_row_slice_rows _ _ _ _ _ _ H) as [row [Hr Ea]].
  assert (Hwd : width a' = width a) by (rewrite Ea; reflexivity).
  split; [exact Hw'|]. split; [exact Hwd|]. split.
  { rewrite Ea. simpl. apply set_nth_length. }
  split.
  - intros k j Hk Hj. rewrite Ea. unfold get2. simpl rows.
    destruct (Nat.eq_dec k i) as [-> | Hki].
    + destruct Hk as [Hk | Hk]; [congruence|].
      rewrite nth_error_set_nth by (apply nth_error_Some; congruence).
      rewrite Hr.
      assert (Hjr : (j < length row)%nat)
        by (rewrite (@well_shaped_row a i row Hw Hr); exact Hj).
      rewrite (nth_error_nth' _ NaN)
        by (rewrite set_range_length; exact Hjr).
      rewrite set_range_nth by exact Hjr. rewrite Hk.
      symmetry. apply nth_error_nth'. exact Hjr.
    + rewrite nth_error_set_nth_other by exact Hki. reflexivity.
  - intros j Hout Hj.
    assert (Hcol : column j (rows a') = column j (rows a)).
    { rewrite (setitem_row_slice_column _ _ _ _ _ _ j Hw Hj H), Hout.
      reflexivity. }
    assert (Hj' : (j < width a')%nat) by (rewrite Hwd; exact Hj).
    unfold average_of, median_of, mad_sigma_of.
    rewrite !(axis0_nth_error _ a' Hj'), !(axis0_nth_error _ a Hj), Hcol.
    rewrite (@pixel_of_column clip_sigma a' j Hw' Hj').
    rewrite (@pixel_of_column clip_sigma a j Hw Hj), Hcol.
    repeat split; reflexivity.
Qed.

Lemma X9_witness :
  let a := mk_ndarray 3 [[Fin 1; Fin 2; Fin 3]; [Fin 4; Fin 5; Fin 6]] in
  let a' := mk_ndarray 3 [[Fin 1; Fin 9; Fin 9]; [Fin 4; Fin 5; Fin 6]] in
  well_shaped a' /\ width a' = width a
  /\ length (rows a') = length (rows a)
  /\ (forall k j, k <> O \/ in_slice 1 7 j = false ->
        (j < width a)%nat -> get2 (rows a') k j = get2 (rows a) k j)
  /\ (forall j, in_slice 1 7 j = false -> (j < width a)%nat ->
        nth_error (average_of a') j = nth_error (average_of a) j
        /\ nth_error (median_of a') j = nth_error (median_of a) j
        /\ nth_error (mad_sigma_of a') j = nth_error (mad_sigma_of a) j
        /\ nth_error (clip_combine_at 10 a') j =
           nth_error (clip_combine_at 10 a) j).
Proof.
  intros a a'.
  apply (slice_assignment_is_local 0 1 7 (Fin 9) a a' 10).
  - repeat constructor.
  - reflexivity.
Defined.

Lemma fsum_set_nth (l : list float) (i : nat) (old v : Q) :
  finite_samples l -> nth_error l i = Some (Fin old) ->
  exists s s',
    fsum l = Fin s /\ fsum (set_nth i (Fin v) l) = Fin s'
    /\ s' == s + (v - old).
Proof.
  intro Hf. revert i. induction Hf as [|x t Hx Ht IH]; intros [|i] Hi;
    simpl in Hi; try discriminate.
  - injection Hi as ->. destruct (fsum_finite Ht) as [s Hs].
    exists (old + s), (v + s). simpl. rewrite Hs. simpl.
    repeat split; try reflexivity. ring.
  - destruct (IH i Hi) as [s [s' [Hs [Hs' E]]]].
    destruct (@is_finite_Fin x Hx) as [q ->].
    exists (q + s), (q + s'). simpl. rewrite Hs, Hs'. simpl.
    repeat split; try reflexivity. rewrite E. ring.
Qed.



Lemma filter_set_nth_le (p : float -> bool) (i : nat) (v : float) (l : list float) :
  (forall k x, k <> i -> nth_error l k = Some x -> p x = false) ->
  (length (filter p (set_nth i v l)) <= 1)%nat.
Proof.
  revert i. induction l as [|y t IH]; intros i H; simpl.
  - destruct i; simpl; lia.
  - destruct i as [|i]; simpl.
    + assert (Ht : filter p t = []).
      { clear IH. induction t as [|z t IHt]; [reflexivity|]. simpl.
        rewrite (H 1%nat z); [|lia | reflexivity].
        apply IHt. intros [|k] x Hk Hx; [congruence|].
        destruct k as [|k]; simpl in Hx.
        - apply (H 2%nat x); [lia|]. simpl. exact Hx.
        - apply (H (S (S (S k))) x); [lia|]. simpl. exact Hx. }
      rewrite Ht. destruct (p v); simpl; lia.
    + rewrite (H O y); [|lia | reflexivity].
      apply IH. intros k x Hk Hx. apply (H (S k) x); [lia | exact Hx].
Qed.

Lemma no_nan_set_nth (i : nat) (v : float) (l : list float) :
  no_nan l -> is_nan v = false -> no_nan (set_nth i v l).
Proof.
  intros Hl Hv. apply no_nan_Forall. apply Forall_forall.
  intros x Hx. apply In_set_nth in Hx. destruct Hx as [-> | Hx]; [exact Hv|].
  eapply no_nan_In; eassumption.
Qed.

(** The median of samples of which all but one lie in [[lo, hi]]. *)
Lemma median_of_all_but_one (l : list float) (i : nat) (w : float) (lo hi : Q) :
  finite_samples l -> (3 <= length l)%nat -> is_nan w = false ->
  (forall k x, k <> i -> nth_error l k = Some (Fin x) -> lo <= x <= hi) ->
  exists m, np_median (set_nth i w l) = Fin m /\ lo <= m <= hi.
Proof.
  intros Hf Hlen Hw Hb.
  assert (Hhalf : (1 <= (length (set_nth i w l) - 1) / 2)%nat).
  { rewrite set_nth_length. apply Nat.div_le_lower_bound; lia. }
  apply median_between.
  - apply no_nan_set_nth; [apply finite_no_nan; exact Hf | exact Hw].
  - intro E. apply (f_equal (@length float)) in E.
    rewrite set_nth_length in E. simpl in E. lia.
  - eapply Nat.le_trans; [|exact Hhalf].
    apply filter_set_nth_le. intros k x Hk Hx.
    destruct (finite_samples_nth_error l k x Hf Hx) as [q ->].
    apply negb_false_iff. simpl. apply Qle_bool_iff.
    apply (Hb k q Hk Hx).
  - eapply Nat.le_trans; [|exact Hhalf].
    apply filter_set_nth_le. intros k x Hk Hx.
    destruct (finite_samples_nth_error l k x Hf Hx) as [q ->].
    apply negb_false_iff. simpl. apply Qle_bool_iff.
    apply (Hb k q Hk Hx).
Qed.



(** * The rejected samples and the clipped average *)

Lemma Qdiv_above_mono (c d p p' : Q) :
  0 < d -> c < p / d -> p <= p' -> c < p' / d.
Proof.
  intros Hd Hc Hp. apply Qlt_shift_div_l; [exact Hd|].
  assert (H : c * d < p / d * d) by (apply Qmult_lt_compat_r; assumption).
  assert (E : p / d * d == p) by (field; lra).
  rewrite E in H. lra.
Qed.

(** With a divisor that is not negative, the test [quotient > c] for a
    positive [c] passes from a dividend to every larger one. *)
Lemma quotient_above_mono (x y m s : float) (c : Q) :
  0 < c -> s = NaN \/ fnonneg s -> fle x y ->
  fgtb (fdiv (fsub x m) s) (Fin c) = true ->
  fgtb (fdiv (fsub y m) s) (Fin c) = true.
Proof.
  intros Hc [-> | Hs] Hxy.
  - destruct (fsub x m); discriminate.
  - unfold fle in Hxy.
    destruct s as [d| | |]; cbn [fnonneg] in Hs; try (exfalso; exact Hs).
    + assert (El : Qlt_bool d 0 = false) by (apply Qlt_bool_false; exact Hs).
      destruct x as [a| | |], y as [b| | |], m as [n| | |];
        cbn [fleb] in Hxy; try discriminate Hxy;
        cbn [fsub fdiv fopp fgtb]; rewrite ?El; cbn [fopp fgtb];
        try discriminate; auto;
        try apply Qle_bool_iff in Hxy;
        destruct (Qeq_bool d 0) eqn:Ed;
        repeat match goal with
               | |- context [0 ?= ?q] =>
                   destruct (Qcompare_zero_cases q) as [[-> ?]|[[-> ?]|[-> ?]]]
               end;
        cbn [fgtb]; try discriminate; try reflexivity;
        try (intros; exfalso; lra);
        intro H; apply Qlt_bool_iff in H; apply Qlt_bool_iff;
        apply Qeq_bool_false in Ed;
        match type of H with
        | _ < ?num / _ => apply (Qdiv_above_mono c d num); lra
        end.
    + destruct x as [a| | |], y as [b| | |], m as [n| | |];
        cbn [fleb] in Hxy; try discriminate Hxy;
        cbn [fsub fdiv fopp fgtb]; try discriminate; auto;
        intro H; apply Qlt_bool_iff in H; lra.
Qed.

Lemma rejected_upward (clip_sigma : Q) (samples : list float) (x y : float) :
  0 < clip_sigma -> fle x y ->
  rejected clip_sigma samples x = true -> rejected clip_sigma samples y = true.
Proof.
  intros Hc Hxy. unfold rejected.
  apply quotient_above_mono; [exact Hc | apply mad_std_sign | exact Hxy].
Qed.

(** X12.  Rejection is a threshold on the sample: at one pixel, for a
    positive threshold of the cells, when a sample is rejected every sample
    that is at least as large is rejected, and when a sample is kept every
    sample that is at most as large is kept. *)
Theorem rejection_is_upward_closed
  (clip_sigma : Q) (a : ndarray) (i k j : nat) (x y : float) :
  well_shaped a -> 0 < clip_sigma ->
  get2 (rows a) i j = Some x -> get2 (rows a) k j = Some y -> fle x y ->
  (get2 (exclude_of clip_sigma a) i j = Some true ->
   get2 (exclude_of clip_sigma a) k j = Some true)
  /\ (get2 (exclude_of clip_sigma a) k j = Some false ->
      get2 (exclude_of clip_sigma a) i j = Some false).
Proof.
  intros Hw Hc Hx Hy Hxy.
  rewrite (@get2_exclude_of clip_sigma a i j x Hw Hx).
  rewrite (@get2_exclude_of clip_sigma a k j y Hw Hy).
  pose proof (rejected_upward clip_sigma (column j (rows a)) x y Hc Hxy) as H.
  split; intro E; injection E as E; f_equal.
  - apply H. exact E.
  - destruct (rejected clip_sigma (column j (rows a)) x); [|reflexivity].
    rewrite H in E by reflexivity. discriminate.
Qed.

Lemma X12_witness :
  let a := mk_ndarray 1 [[Fin 1]; [Fin 2]; [Fin 3]; [Fin 40]; [Fin 50]; [Fin 4];
                         [Fin 2]] in
  (get2 (exclude_of 10 a) 3 0 = Some true ->
   get2 (exclude_of 10 a) 4 0 = Some true)
  /\ (get2 (exclude_of 10 a) 4 0 = Some false ->
      get2 (exclude_of 10 a) 3 0 = Some false).
Proof.
  intro a.
  apply (rejection_is_upward_closed 10 a 3 4 0 (Fin 40) (Fin 50)).
  - repeat constructor.
  - reflexivity.
  - reflexivity.
  - reflexivity.
  - reflexivity.
Defined.

(** ** The clipped average and the plain average *)

Lemma fsum_upper (l : list float) (M : Q) :
  finite_samples l -> (forall x, In (Fin x) l -> x <= M) ->
  exists s, fsum l = Fin s /\ s <= inject_Z (Z.of_nat (length l)) * M.
Proof.
  induction 1 as [|x t Hx Ht IH]; intro Hb.
  - exists 0. split; [reflexivity|].
    cbn [length]. change (inject_Z (Z.of_nat 0)) with 0. lra.
  - destruct IH as [s [Hs Hle]]; [intros y Hy; apply Hb; right; exact Hy|].
    destruct (@is_finite_Fin x Hx) as [q ->].
    assert (Hq : q <= M) by (apply Hb; left; reflexivity).
    exists (q + s). split; [simpl; rewrite Hs; reflexivity|].
    cbn [length]. rewrite Nat2Z.inj_succ. unfold Z.succ.
    rewrite inject_Z_plus. change (inject_Z 1) with 1.
    set (N := inject_Z (Z.of_nat (length t))) in *.
    assert (E : (N + 1) * M == N * M + M) by ring.
    rewrite E. lra.
Qed.

Lemma fsum_lower (l : list float) (M : Q) :
  finite_samples l -> (forall x, In (Fin x) l -> M <= x) ->
  exists s, fsum l = Fin s /\ inject_Z (Z.of_nat (length l)) * M <= s.
Proof.
  induction 1 as [|x t Hx Ht IH]; intro Hb.
  - exists 0. split; [reflexivity|].
    cbn [length]. change (inject_Z (Z.of_nat 0)) with 0. lra.
  - destruct IH as [s [Hs Hle]]; [intros y Hy; apply Hb; right; exact Hy|].
    destruct (@is_finite_Fin x Hx) as [q ->].
    assert (Hq : M <= q) by (apply Hb; left; reflexivity).
    exists (q + s). split; [simpl; rewrite Hs; reflexivity|].
    cbn [length]. rewrite Nat2Z.inj_succ. unfold Z.succ.
    rewrite inject_Z_plus. change (inject_Z 1) with 1.
    set (N := inject_Z (Z.of_nat (length t))) in *.
    assert (E : (N + 1) * M == N * M + M) by ring.
    rewrite E. lra.
Qed.

Lemma fsum_partition (p : float -> bool) (l : list float) :
  finite_samples l ->
  exists s u w,
    fsum l = Fin s /\ fsum (filter p l) = Fin u
    /\ fsum (filter (fun x => negb (p x)) l) = Fin w /\ s == u + w.
Proof.
  induction 1 as [|x t Hx Ht [s [u [w [Hs [Hu [Hw E]]]]]]].
  - exists 0, 0, 0. repeat split; try reflexivity.
  - destruct (@is_finite_Fin x Hx) as [q ->]. simpl.
    destruct (p (Fin q)); simpl; rewrite Hs, Hu, Hw; simpl.
    + exists (q + s), (q + u), w. repeat split; try reflexivity. lra.
    + exists (q + s), u, (q + w). repeat split; try reflexivity. lra.
Qed.

Lemma length_partition (A : Type) (p : A -> bool) (l : list A) :
  length l = (length (filter p l) + length (filter (fun x => negb (p x)) l))%nat.
Proof.
  induction l as [|x t IH]; simpl; [reflexivity|].
  destruct (p x); simpl; lia.
Qed.

Lemma finite_max (l : list float) :
  finite_samples l -> l <> [] ->
  exists M, In (Fin M) l /\ forall x, In (Fin x) l -> x <= M.
Proof.
  induction 1 as [|x t Hx Ht IH]; intro Hne; [congruence|].
  destruct (@is_finite_Fin x Hx) as [q ->].
  destruct t as [|y t'].
  - exists q. split; [left; reflexivity|].
    intros z [Hz | []]. injection Hz as <-. lra.
  - destruct IH as [M [HM Hb]]; [discriminate|].
    destruct (Qlt_le_dec M q) as [Hlt | Hle].
    + exists q. split; [left; reflexivity|].
      intros z [Hz | Hz]; [injection Hz as <-; lra|].
      specialize (Hb z Hz). lra.
    + exists M. split; [right; exact HM|].
      intros z [Hz | Hz]; [injection Hz as <-; lra|].
      apply Hb. exact Hz.
Qed.

Lemma filter_finite (p : float -> bool) (l : list float) :
  finite_samples l -> finite_samples (filter p l).
Proof.
  unfold finite_samples. rewrite !Forall_forall.
  intros H x Hx. apply filter_In in Hx. apply H. tauto.
Qed.

Lemma Qmean_le (u w M np nq : Q) :
  0 < np -> 0 <= nq -> u <= np * M -> nq * M <= w ->
  u / np <= (u + w) / (np + nq).
Proof.
  intros Hp Hq Hu Hw.
  apply Qle_shift_div_l; [lra|].
  assert (E : u / np * (np + nq) == u + (u * nq) / np) by (field; lra).
  rewrite E.
  assert (H1 : u * nq <= np * M * nq) by (apply Qmult_le_compat_r; assumption).
  assert (H2 : np * (nq * M) <= np * w) by (apply Qmult_le_l; [lra | exact Hw]).
  assert (H3 : (u * nq) / np <= w).
  { apply Qle_shift_div_r; [exact Hp|].
    assert (E2 : np * M * nq == np * (nq * M)) by ring.
    assert (E3 : w * np == np * w) by ring.
    rewrite E3. lra. }
  lra.
Qed.

Lemma clip_pixel_le_mean (clip_sigma : Q) (samples : list float) :
  0 < clip_sigma -> finite_samples samples -> samples <> [] ->
  exists c m,
    clip_pixel clip_sigma samples = Fin c /\ np_mean samples = Fin m
    /\ c <= m
    /\ forall lo, (forall x, In (Fin x) samples -> lo <= x) -> lo <= c.
Proof.
  intros Hc Hf Hne.
  set (keep := fun x => negb (rejected clip_sigma samples x)).
  pose proof (survivors_finite clip_sigma Hf) as HfS.
  pose proof (survivors_nonempty Hc Hf Hne) as HneS.
  change (survivors clip_sigma samples) with (filter keep samples) in HfS, HneS.
  pose proof (filter_finite (fun x => negb (keep x)) samples Hf) as HfR.
  destruct (finite_max (filter keep samples) HfS HneS) as [M [HM HbS]].
  assert (HbR : forall x, In (Fin x) (filter (fun x => negb (keep x)) samples) ->
                M <= x).
  { intros r Hr. apply filter_In in Hr. destruct Hr as [_ Hr].
    unfold keep in Hr. rewrite negb_involutive in Hr.
    apply filter_In in HM. destruct HM as [_ HM].
    unfold keep in HM. apply negb_true_iff in HM.
    destruct (Qlt_le_dec r M) as [Hlt | Hle]; [exfalso | exact Hle].
    assert (Hle : fle (Fin r) (Fin M))
      by (unfold fle; simpl; apply Qle_bool_iff; lra).
    rewrite (rejected_upward clip_sigma samples (Fin r) (Fin M) Hc Hle Hr) in HM.
    discriminate. }
  destruct (fsum_partition keep samples Hf) as [s [u [w [Hs [Hu [Hw E]]]]]].
  destruct (fsum_upper _ M HfS HbS) as [u' [Hu' Hup]].
  destruct (fsum_lower _ M HfR HbR) as [w' [Hw' Hlow]].
  rewrite Hu in Hu'. injection Hu' as <-.
  rewrite Hw in Hw'. injection Hw' as <-.
  set (np := inject_Z (Z.of_nat (length (filter keep samples)))) in *.
  set (nq := inject_Z (Z.of_nat (length (filter (fun x => negb (keep x)) samples))))
    in *.
  assert (Hp : (0 < length (filter keep samples))%nat).
  { destruct (filter keep samples); simpl; [congruence | lia]. }
  assert (Hnp : 0 < np) by (apply of_nat_pos; exact Hp).
  assert (Hnq : 0 <= nq).
  { unfold nq, Qle. simpl. lia. }
  assert (Hn : inject_Z (Z.of_nat (length samples)) == np + nq).
  { rewrite (length_partition _ keep samples), Nat2Z.inj_add, inject_Z_plus.
    reflexivity. }
  assert (HmS : np_mean (filter keep samples) = Fin (u / np)).
  { unfold np_mean. rewrite Hu. unfold of_nat, fdiv.
    rewrite (of_nat_nonzero Hp). reflexivity. }
  assert (Hl : (0 < length samples)%nat).
  { destruct samples; simpl; [congruence | lia]. }
  assert (Hm : np_mean samples = Fin (s / inject_Z (Z.of_nat (length samples)))).
  { unfold np_mean. rewrite Hs. unfold of_nat, fdiv.
    rewrite (of_nat_nonzero Hl). reflexivity. }
  pose proof (clip_pixel_mean_survivors clip_sigma Hf) as Hcm.
  change (survivors clip_sigma samples) with (filter keep samples) in Hcm.
  rewrite HmS in Hcm.
  destruct (clip_pixel clip_sigma samples) as [c| | |]; cbn [feq] in Hcm;
    try (exfalso; exact Hcm).
  exists c, (s / inject_Z (Z.of_nat (length samples))).
  split; [reflexivity|]. split; [exact Hm|]. split.
  - rewrite Hcm, Hn, E. apply Qmean_le with (M := M); assumption.
  - intros lo Hlo. rewrite Hcm.
    destruct (fsum_lower (filter keep samples) lo HfS) as [u'' [Hu'' Hlow']].
    { intros x Hx. apply Hlo. apply filter_In in Hx. tauto. }
    rewrite Hu in Hu''. injection Hu'' as <-.
    apply Qle_shift_div_l; [exact Hnp|].
    fold np in Hlow'.
    assert (E2 : lo * np == np * lo) by ring.
    rewrite E2. exact Hlow'.
Qed.



(** ** A value shared by more than half of the images *)

Lemma majority_median (l : list float) (v : Q) :
  no_nan l ->
  (length l < 2 * length (filter (fun x => float_eqb x (Fin v)) l))%nat ->
  exists m, np_median l = Fin m /\ m == v.
Proof.
  intros Hn Hmaj.
  set (same := fun x => float_eqb x (Fin v)) in *.
  assert (Hne : l <> []).
  { intro E. rewrite E in Hmaj. simpl in Hmaj. lia. }
  assert (Hhalf : forall cnt : nat,
             (cnt + length (filter same l) <= length l)%nat ->
             (cnt <= (length l - 1) / 2)%nat).
  { intros cnt Hc. apply Nat.div_le_lower_bound; lia. }
  destruct (median_between l v v Hn Hne) as [m [Hm Hb]].
  - apply Hhalf. rewrite Nat.add_comm. apply filter_disjoint_length.
    intros x _ Hx. unfold same in Hx. apply negb_false_iff.
    destruct x as [q| | |]; simpl in Hx; try discriminate.
    apply Qeq_bool_iff in Hx. simpl. apply Qle_bool_iff. lra.
  - apply Hhalf. rewrite Nat.add_comm. apply filter_disjoint_length.
    intros x _ Hx. unfold same in Hx. apply negb_false_iff.
    destruct x as [q| | |]; simpl in Hx; try discriminate.
    apply Qeq_bool_iff in Hx. simpl. apply Qle_bool_iff. lra.
  - exists m. split; [exact Hm | lra].
Qed.

Lemma majority_mad_zero (l : list float) (v : Q) :
  no_nan l ->
  (length l < 2 * length (filter (fun x => float_eqb x (Fin v)) l))%nat ->
  exists d, mad_std l = Fin d /\ d == 0.
Proof.
  intros Hn Hmaj.
  destruct (majority_median l v Hn Hmaj) as [m [Hm Hmv]].
  unfold mad_std, median_absolute_deviation. rewrite Hm.
  set (dev := fun x => fabs (fsub x (Fin m))).
  assert (Hnd : no_nan (map dev l)).
  { apply no_nan_Forall. apply Forall_forall. intros y Hy.
    apply in_map_iff in Hy. destruct Hy as [x [<- Hx]].
    pose proof (@no_nan_In l x Hn Hx) as Hxn.
    destruct x; simpl in *; congruence. }
  destruct (majority_median (map dev l) 0 Hnd) as [z [Hz Hz0]].
  - rewrite length_map, filter_map_length.
    eapply Nat.lt_le_trans; [exact Hmaj|].
    apply Nat.mul_le_mono_l. apply filter_length_impl.
    intros x _ Hx. destruct x as [q| | |]; simpl in Hx; try discriminate.
    apply Qeq_bool_iff in Hx. unfold dev. cbn [fsub fabs float_eqb].
    apply Qeq_bool_iff. apply Qabs_case; intros; lra.
  - rewrite Hz. eexists. split; [reflexivity|]. rewrite Hz0. ring.
Qed.

Lemma fgtb_Qeq_r (x : float) (p q : Q) : p == q -> fgtb x (Fin p) = fgtb x (Fin q).
Proof.
  intro E. destruct x as [a| | |]; simpl; auto.
  destruct (Qlt_bool p a) eqn:E1, (Qlt_bool q a) eqn:E2; auto; qcases; lra.
Qed.



(** * The order of the images *)

(** ** The operations on equal values *)

Lemma fleb_feq (x x' y y' : float) :
  feq x x' -> feq y y' -> fleb x y = fleb x' y'.
Proof.
  intros Hx Hy.
  destruct x as [a| | |], x' as [a'| | |]; cbn [feq] in Hx; try (exfalso; exact Hx);
  destruct y as [b| | |], y' as [b'| | |]; cbn [feq] in Hy; try (exfalso; exact Hy);
    try reflexivity.
  simpl. destruct (Qle_bool a b) eqn:E1, (Qle_bool a' b') eqn:E2; auto.
  - apply Qle_bool_iff in E1. apply Qle_bool_false in E2. lra.
  - apply Qle_bool_iff in E2. apply Qle_bool_false in E1. lra.
Qed.

Lemma fgtb_feq (x x' y y' : float) :
  feq x x' -> feq y y' -> fgtb x y = fgtb x' y'.
Proof.
  intros Hx Hy.
  destruct x as [a| | |], x' as [a'| | |]; cbn [feq] in Hx; try (exfalso; exact Hx);
  destruct y as [b| | |], y' as [b'| | |]; cbn [feq] in Hy; try (exfalso; exact Hy);
    try reflexivity.
  simpl. destruct (Qlt_bool b a) eqn:E1, (Qlt_bool b' a') eqn:E2; auto; qcases; lra.
Qed.

Lemma fadd_feq (x x' y y' : float) :
  feq x x' -> feq y y' -> feq (fadd x y) (fadd x' y').
Proof.
  intros Hx Hy.
  destruct x as [a| | |], x' as [a'| | |]; cbn [feq] in Hx; try (exfalso; exact Hx);
  destruct y as [b| | |], y' as [b'| | |]; cbn [feq] in Hy; try (exfalso; exact Hy);
    simpl; auto.
  lra.
Qed.

Lemma fsub_feq (x x' y y' : float) :
  feq x x' -> feq y y' -> feq (fsub x y) (fsub x' y').
Proof.
  intros Hx Hy.
  destruct x as [a| | |], x' as [a'| | |]; cbn [feq] in Hx; try (exfalso; exact Hx);
  destruct y as [b| | |], y' as [b'| | |]; cbn [feq] in Hy; try (exfalso; exact Hy);
    simpl; auto.
  lra.
Qed.

Lemma fabs_feq (x x' : float) : feq x x' -> feq (fabs x) (fabs x').
Proof.
  intro Hx.
  destruct x as [a| | |], x' as [a'| | |]; cbn [feq] in Hx; try (exfalso; exact Hx);
    simpl; auto.
  rewrite Hx. reflexivity.
Qed.

Lemma Qeq_bool_Qeq (a a' b b' : Q) :
  a == a' -> b == b' -> Qeq_bool a b = Qeq_bool a' b'.
Proof.
  intros Ha Hb.
  destruct (Qeq_bool a b) eqn:E1, (Qeq_bool a' b') eqn:E2; auto; qcases.
  - exfalso. apply E2. rewrite <- Ha, <- Hb. exact E1.
  - exfalso. apply E1. rewrite Ha, Hb. exact E2.
Qed.

Lemma Qlt_bool_Qeq (a a' b b' : Q) :
  a == a' -> b == b' -> Qlt_bool a b = Qlt_bool a' b'.
Proof.
  intros Ha Hb.
  destruct (Qlt_bool a b) eqn:E1, (Qlt_bool a' b') eqn:E2; auto; qcases; lra.
Qed.

Lemma fdiv_feq_all (x x' y y' : float) :
  feq x x' -> feq y y' -> feq (fdiv x y) (fdiv x' y').
Proof.
  intros Hx Hy.
  destruct x as [a| | |], x' as [a'| | |]; cbn [feq] in Hx; try (exfalso; exact Hx);
  destruct y as [b| | |], y' as [b'| | |]; cbn [feq] in Hy; try (exfalso; exact Hy);
    cbn [fdiv]; try exact I; try (cbn [feq]; reflexivity).
  - rewrite (Qeq_bool_Qeq b b' 0 0 Hy (Qeq_refl 0)).
    destruct (Qeq_bool b' 0) eqn:Eb.
    + destruct (Qcompare_zero_cases a) as [[-> ?]|[[-> ?]|[-> ?]]];
        destruct (Qcompare_zero_cases a') as [[-> ?]|[[-> ?]|[-> ?]]];
        cbn [feq]; auto; lra.
    + cbn [feq]. rewrite Hx, Hy. reflexivity.
  - rewrite (Qlt_bool_Qeq b b' 0 0 Hy (Qeq_refl 0)).
    destruct (Qlt_bool b' 0); exact I.
  - rewrite (Qlt_bool_Qeq b b' 0 0 Hy (Qeq_refl 0)).
    destruct (Qlt_bool b' 0); exact I.
Qed.

Lemma fmul_feq_l (x x' : float) (k : Q) :
  feq x x' -> feq (fmul x (Fin k)) (fmul x' (Fin k)).
Proof.
  intro Hx.
  destruct x as [a| | |], x' as [a'| | |]; cbn [feq] in Hx; try (exfalso; exact Hx);
    try apply feq_refl.
  simpl. rewrite Hx. reflexivity.
Qed.

Lemma fle_antisym (x y : float) : fle x y -> fle y x -> feq x y.
Proof.
  unfold fle. destruct x as [a| | |], y as [b| | |]; simpl; try discriminate; auto.
  intros H1 H2. apply Qle_bool_iff in H1, H2. lra.
Qed.

(** ** Sorting equal and permuted samples *)

Lemma Forall2_feq_refl (l : list float) : Forall2 feq l l.
Proof. induction l; constructor; [apply feq_refl | assumption]. Qed.

Lemma Forall2_feq_trans (l1 l2 l3 : list float) :
  Forall2 feq l1 l2 -> Forall2 feq l2 l3 -> Forall2 feq l1 l3.
Proof.
  intro H. revert l3. induction H as [|x y t1 t2 Hxy _ IH]; intros l3 H3;
    inversion H3; subst; constructor.
  - eapply feq_trans; eassumption.
  - apply IH. assumption.
Qed.

Lemma Forall2_feq_length (l l' : list float) :
  Forall2 feq l l' -> length l = length l'.
Proof. induction 1; simpl; congruence. Qed.

Lemma Forall2_feq_nth (l l' : list float) (k : nat) :
  Forall2 feq l l' -> feq (nth k l NaN) (nth k l' NaN).
Proof.
  intro H. revert k. induction H as [|x y t t' Hxy _ IH]; intros [|k]; simpl;
    auto; exact I.
Qed.

Lemma Forall2_feq_has_nan (l l' : list float) :
  Forall2 feq l l' -> existsb is_nan l = existsb is_nan l'.
Proof.
  induction 1 as [|x y t t' Hxy _ IH]; simpl; [reflexivity|].
  rewrite (feq_is_nan _ _ Hxy), IH. reflexivity.
Qed.

Lemma insert_feq (x x' : float) (s s' : list float) :
  feq x x' -> Forall2 feq s s' -> Forall2 feq (insert x s) (insert x' s').
Proof.
  intros Hx H. induction H as [|y y' t t' Hy Ht IH]; simpl.
  - constructor; [exact Hx | constructor].
  - rewrite (fleb_feq x x' y y' Hx Hy).
    destruct (fleb x' y').
    + constructor; [exact Hx|]. constructor; assumption.
    + constructor; assumption.
Qed.

Lemma sort_feq (l l' : list float) :
  Forall2 feq l l' -> Forall2 feq (sort l) (sort l').
Proof.
  induction 1 as [|x y t t' Hxy _ IH]; simpl; [constructor|].
  apply insert_feq; assumption.
Qed.

(** Two insertions commute, up to the order of two equal values. *)
Lemma insert_insert (x y : float) (s : list float) :
  is_nan x = false -> is_nan y = false ->
  Forall2 feq (insert x (insert y s)) (insert y (insert x s)).
Proof.
  intros Hx Hy. induction s as [|z t IH].
  - simpl. destruct (fleb x y) eqn:Exy, (fleb y x) eqn:Eyx.
    + pose proof (fle_antisym x y Exy Eyx) as E.
      repeat constructor; [exact E | apply feq_sym; exact E].
    + apply Forall2_feq_refl.
    + apply Forall2_feq_refl.
    + pose proof (@fle_total x y Hx Hy Exy) as H. unfold fle in H. congruence.
  - cbn [insert].
    destruct (fleb y z) eqn:Eyz, (fleb x z) eqn:Exz; cbn [insert];
      rewrite ?Eyz, ?Exz.
    + destruct (fleb x y) eqn:Exy, (fleb y x) eqn:Eyx.
      * pose proof (fle_antisym x y Exy Eyx) as E.
        constructor; [exact E|]. constructor; [apply feq_sym; exact E|].
        apply Forall2_feq_refl.
      * apply Forall2_feq_refl.
      * apply Forall2_feq_refl.
      * pose proof (@fle_total x y Hx Hy Exy) as H. unfold fle in H. congruence.
    + assert (Exy : fleb x y = false).
      { destruct (fleb x y) eqn:E; [|reflexivity].
        assert (fle x z) by (eapply fle_trans; eassumption).
        unfold fle in *. congruence. }
      rewrite Exy. apply Forall2_feq_refl.
    + assert (Eyx : fleb y x = false).
      { destruct (fleb y x) eqn:E; [|reflexivity].
        assert (fle y z) by (eapply fle_trans; eassumption).
        unfold fle in *. congruence. }
      rewrite Eyx. apply Forall2_feq_refl.
    + constructor; [apply feq_refl | exact IH].
Qed.

Lemma sort_perm_feq (l l' : list float) :
  Permutation l l' -> no_nan l -> Forall2 feq (sort l) (sort l').
Proof.
  induction 1 as [|x t t' P IH|x y t|l1 l2 l3 P1 IH1 P2 IH2]; intro Hn.
  - constructor.
  - apply no_nan_cons in Hn. simpl. apply insert_feq; [apply feq_refl | tauto].
  - apply no_nan_cons in Hn. destruct Hn as [Hy Hn].
    apply no_nan_cons in Hn. destruct Hn as [Hx _].
    simpl. apply insert_insert; assumption.
  - eapply Forall2_feq_trans; [apply IH1; exact Hn|].
    apply IH2. eapply no_nan_perm; eassumption.
Qed.

Lemma has_nan_perm (l l' : list float) :
  Permutation l l' -> existsb is_nan l = existsb is_nan l'.
Proof.
  induction 1 as [|x t t' P IH|x y t|l1 l2 l3 P1 IH1 P2 IH2]; simpl.
  - reflexivity.
  - rewrite IH. reflexivity.
  - destruct (is_nan x), (is_nan y); reflexivity.
  - congruence.
Qed.

(** ** The mean and the median of equal and of permuted samples *)

Lemma fsum_feq (l l' : list float) :
  Forall2 feq l l' -> feq (fsum l) (fsum l').
Proof.
  induction 1 as [|x y t t' Hxy _ IH]; simpl; [reflexivity|].
  apply fadd_feq; assumption.
Qed.

Lemma np_mean_feq (l l' : list float) :
  Forall2 feq l l' -> feq (np_mean l) (np_mean l').
Proof.
  intro H. unfold np_mean. rewrite (Forall2_feq_length l l' H).
  apply fdiv_feq_all; [apply fsum_feq; exact H | apply feq_refl].
Qed.

Lemma Forall2_feq_firstn (n : nat) (l l' : list float) :
  Forall2 feq l l' -> Forall2 feq (firstn n l) (firstn n l').
Proof.
  intro H. revert n. induction H as [|x y t t' Hxy _ IH]; intros [|n]; simpl;
    constructor; auto.
Qed.

Lemma Forall2_feq_skipn (k : nat) (l l' : list float) :
  Forall2 feq l l' -> Forall2 feq (skipn k l) (skipn k l').
Proof.
  intro H. revert k. induction H as [|x y t t' Hxy Ht IH]; intros [|k]; simpl;
    try constructor; auto.
Qed.

Lemma np_median_of_sorted (l l' : list float) :
  existsb is_nan l = existsb is_nan l' ->
  Forall2 feq (sort l) (sort l') ->
  feq (np_median l) (np_median l').
Proof.
  intros Hnan Hs.
  pose proof (Forall2_feq_length _ _ Hs) as Hlen.
  unfold np_median. rewrite <- Hnan, <- Hlen.
  destruct (existsb is_nan l); [exact I|].
  destruct (Nat.odd (length (sort l))); apply np_mean_feq;
    apply Forall2_feq_firstn, Forall2_feq_skipn; exact Hs.
Qed.

Lemma np_median_feq (l l' : list float) :
  Forall2 feq l l' -> feq (np_median l) (np_median l').
Proof.
  intro H. apply np_median_of_sorted.
  - apply Forall2_feq_has_nan. exact H.
  - apply sort_feq. exact H.
Qed.

(** The median does not depend on the order of the samples. *)
Lemma np_median_perm (l l' : list float) :
  Permutation l l' -> feq (np_median l) (np_median l').
Proof.
  intro P. pose proof (has_nan_perm l l' P) as Hnan.
  destruct (existsb is_nan l) eqn:E.
  - rewrite (np_median_has_nan l E).
    rewrite (np_median_has_nan l'); [exact I | congruence].
  - apply np_median_of_sorted; [congruence|].
    apply sort_perm_feq; assumption.
Qed.

Lemma Forall2_feq_map (f g : float -> float) (l : list float) :
  (forall x, In x l -> feq (f x) (g x)) -> Forall2 feq (map f l) (map g l).
Proof.
  induction l as [|x t IH]; intro H; simpl; constructor.
  - apply H. left. reflexivity.
  - apply IH. intros y Hy. apply H. right. exact Hy.
Qed.

(** The scale does not depend on the order of the samples. *)
Lemma mad_std_perm (l l' : list float) :
  Permutation l l' -> feq (mad_std l) (mad_std l').
Proof.
  intro P. unfold mad_std, median_absolute_deviation.
  apply fmul_feq_l.
  pose proof (np_median_perm l l' P) as Hm.
  eapply feq_trans.
  - apply np_median_perm.
    apply (Permutation_map (fun x => fabs (fsub x (np_median l)))). exact P.
  - apply np_median_feq. apply Forall2_feq_map.
    intros x _. apply fabs_feq. apply fsub_feq; [apply feq_refl | exact Hm].
Qed.

Lemma rejected_perm (clip_sigma : Q) (l l' : list float) (x : float) :
  Permutation l l' -> rejected clip_sigma l x = rejected clip_sigma l' x.
Proof.
  intro P. unfold rejected. apply fgtb_feq; [|apply feq_refl].
  apply fdiv_feq_all; [|apply mad_std_perm; exact P].
  apply fsub_feq; [apply feq_refl | apply np_median_perm; exact P].
Qed.

Lemma fadd_swap (x y s : float) :
  feq (fadd x (fadd y s)) (fadd y (fadd x s)).
Proof.
  destruct x as [a| | |], y as [b| | |], s as [c| | |]; simpl; auto. lra.
Qed.

Lemma fsum_perm (l l' : list float) : Permutation l l' -> feq (fsum l) (fsum l').
Proof.
  induction 1 as [|x t t' P IH|x y t|l1 l2 l3 P1 IH1 P2 IH2]; simpl.
  - reflexivity.
  - apply fadd_feq; [apply feq_refl | exact IH].
  - apply fadd_swap.
  - eapply feq_trans; eassumption.
Qed.

Lemma np_nanmean_perm (l l' : list float) :
  Permutation l l' -> feq (np_nanmean l) (np_nanmean l').
Proof.
  intro P. unfold np_nanmean, count_valid.
  rewrite (filter_length_perm (fun x => negb (is_nan x)) P).
  apply fdiv_feq_all; [|apply feq_refl].
  apply fsum_perm. unfold replace_nan. apply Permutation_map. exact P.
Qed.

(** The clipped average of a pixel does not depend on the order of its
    samples. *)
Lemma clip_pixel_perm (clip_sigma : Q) (l l' : list float) :
  Permutation l l' -> feq (clip_pixel clip_sigma l) (clip_pixel clip_sigma l').
Proof.
  intro P. unfold clip_pixel, clipped.
  assert (E : map (fun x => if rejected clip_sigma l' x then NaN else x) l' =
              map (fun x => if rejected clip_sigma l x then NaN else x) l').
  { apply map_ext. intro x. rewrite (rejected_perm clip_sigma l l' x P).
    reflexivity. }
  rewrite E. apply np_nanmean_perm. apply Permutation_map. exact P.
Qed.



(** * The bias level *)

Section Shift.

Variable c : Q.

Local Abbreviation shift := (add_level c).

Lemma fleb_shift (x y : float) : fleb (shift x) (shift y) = fleb x y.
Proof.
  unfold add_level. destruct x as [a| | |], y as [b| | |]; simpl; auto.
  destruct (Qle_bool (a + c) (b + c)) eqn:E1, (Qle_bool a b) eqn:E2; auto.
  - apply Qle_bool_iff in E1. apply Qle_bool_false in E2. lra.
  - apply Qle_bool_iff in E2. apply Qle_bool_false in E1. lra.
Qed.

Lemma insert_shift (x : float) (s : list float) :
  insert (shift x) (map shift s) = map shift (insert x s).
Proof.
  induction s as [|y t IH]; simpl; [reflexivity|].
  rewrite fleb_shift. destruct (fleb x y); simpl; [reflexivity|].
  rewrite IH. reflexivity.
Qed.

Lemma sort_shift (l : list float) : sort (map shift l) = map shift (sort l).
Proof.
  induction l as [|x t IH]; simpl; [reflexivity|].
  rewrite IH. apply insert_shift.
Qed.

Lemma has_nan_shift (l : list float) :
  existsb is_nan (map shift l) = existsb is_nan l.
Proof.
  induction l as [|x t IH]; simpl; [reflexivity|].
  rewrite IH. destruct x; reflexivity.
Qed.

Lemma np_mean_shift_short (l : list float) :
  (length l <= 2)%nat -> feq (np_mean (map shift l)) (shift (np_mean l)).
Proof.
  intro Hl. destruct l as [|x [|y [|z t]]]; simpl in Hl; try lia.
  - exact I.
  - destruct x as [a| | |]; cbn; auto.
    unfold Qdiv. change (/ inject_Z 1) with 1. ring.
  - destruct x as [a| | |], y as [b| | |]; cbn; auto.
    unfold Qdiv. change (/ inject_Z 2) with (1 # 2). ring.
Qed.

Lemma np_median_shift (l : list float) :
  feq (np_median (map shift l)) (shift (np_median l)).
Proof.
  unfold np_median. rewrite has_nan_shift, sort_shift, length_map.
  destruct (existsb is_nan l); [exact I|].
  destruct (Nat.odd (length (sort l)));
    rewrite skipn_map, firstn_map; apply np_mean_shift_short;
    rewrite length_firstn; lia.
Qed.

Lemma fsub_shift (x m : float) : feq (fsub (shift x) (shift m)) (fsub x m).
Proof.
  unfold add_level. destruct x as [a| | |], m as [b| | |]; simpl; auto. ring.
Qed.

Lemma mad_std_shift (l : list float) :
  feq (mad_std (map shift l)) (mad_std l).
Proof.
  unfold mad_std, median_absolute_deviation.
  apply fmul_feq_l. rewrite map_map.
  apply np_median_feq. apply Forall2_feq_map.
  intros x _. apply fabs_feq.
  eapply feq_trans; [|apply fsub_shift].
  apply fsub_feq; [apply feq_refl | apply np_median_shift].
Qed.

Lemma rejected_shift (clip_sigma : Q) (l : list float) (x : float) :
  rejected clip_sigma (map shift l) (shift x) = rejected clip_sigma l x.
Proof.
  unfold rejected. apply fgtb_feq; [|apply feq_refl].
  apply fdiv_feq_all; [|apply mad_std_shift].
  eapply feq_trans; [|apply fsub_shift].
  apply fsub_feq; [apply feq_refl | apply np_median_shift].
Qed.

Lemma fsum_kept_shift (r : float -> bool) (l : list float) :
  finite_samples l ->
  exists s s',
    fsum (replace_nan (map (fun x => if r x then NaN else x) l)) = Fin s
    /\ fsum (replace_nan (map (fun x => if r x then NaN else shift x) l)) = Fin s'
    /\ s' == s + inject_Z (Z.of_nat (length (filter (fun x => negb (r x)) l))) * c.
Proof.
  induction 1 as [|x t Hx Ht [s [s' [Hs [Hs' E]]]]]; simpl.
  - exists 0, 0. repeat split; try reflexivity.
  - destruct (@is_finite_Fin x Hx) as [q ->].
    destruct (r (Fin q)); simpl; rewrite Hs, Hs'; simpl.
    + exists (0 + s), (0 + s'). repeat split; try reflexivity. rewrite E. ring.
    + exists (q + s), (q + c + s'). repeat split; try reflexivity.
      rewrite E. rewrite Zpos_P_of_succ_nat. unfold Z.succ.
      rewrite inject_Z_plus. change (inject_Z 1) with 1. ring.
Qed.

Lemma count_valid_kept_shift (r : float -> bool) (l : list float) :
  finite_samples l ->
  count_valid (map (fun x => if r x then NaN else shift x) l) =
  length (filter (fun x => negb (r x)) l).
Proof.
  unfold count_valid. induction 1 as [|x t Hx Ht IH]; simpl; [reflexivity|].
  destruct (@is_finite_Fin x Hx) as [q ->].
  destruct (r (Fin q)); simpl; rewrite IH; reflexivity.
Qed.

Lemma clip_pixel_shift (clip_sigma : Q) (l : list float) :
  finite_samples l ->
  feq (clip_pixel clip_sigma (map shift l)) (shift (clip_pixel clip_sigma l)).
Proof.
  intro Hf. unfold clip_pixel, clipped. rewrite map_map.
  assert (E : map (fun x => if rejected clip_sigma (map shift l) (shift x)
                            then NaN else shift x) l =
              map (fun x => if rejected clip_sigma l x then NaN else shift x) l).
  { apply map_ext. intro x. rewrite rejected_shift. reflexivity. }
  rewrite E. unfold np_nanmean.
  rewrite (count_valid_kept_shift _ l Hf), (count_valid_clipped _ Hf).
  destruct (fsum_kept_shift (rejected clip_sigma l) l Hf) as [s [s' [Hs [Hs' Es]]]].
  rewrite Hs, Hs'.
  set (n := length (filter (fun x => negb (rejected clip_sigma l x)) l)) in *.
  unfold of_nat, fdiv.
  destruct n as [|n].
  - change (inject_Z (Z.of_nat 0)) with 0 in *.
    change (Qeq_bool 0 0) with true. cbv iota.
    assert (Es0 : s' == s) by (rewrite Es; ring).
    destruct (Qcompare_zero_cases s) as [[-> ?]|[[-> ?]|[-> ?]]];
      destruct (Qcompare_zero_cases s') as [[-> ?]|[[-> ?]|[-> ?]]];
      unfold add_level; simpl; auto; lra.
  - assert (Hn : (0 < S n)%nat) by lia.
    rewrite (of_nat_nonzero Hn). unfold add_level. cbn [fadd feq].
    rewrite Es. field.
    apply Qeq_bool_false, of_nat_nonzero. exact Hn.
Qed.

End Shift.

Lemma exclude_row_shift (clip_sigma c : Q) (median' median : list float) :
  Forall2 (fun m' m => feq m' (add_level c m)) median' median ->
  forall mad_sigma' mad_sigma row,
    Forall2 feq mad_sigma' mad_sigma ->
    exclude_row clip_sigma (map (add_level c) row) median' mad_sigma' =
    exclude_row clip_sigma row median mad_sigma.
Proof.
  induction 1 as [|m' m med' med Hm Hmed IH]; intros mad' mad row Hs.
  - destruct row; reflexivity.
  - destruct row as [|x row]; [reflexivity|].
    destruct Hs as [|s' s mad' mad Hs Hmad]; [reflexivity|].
    cbn [map exclude_row]. f_equal.
    + apply fgtb_feq; [|apply feq_refl].
      apply fdiv_feq_all; [|exact Hs].
      eapply feq_trans; [|apply (fsub_shift c x m)].
      apply fsub_feq; [apply feq_refl | exact Hm].
    + apply IH. exact Hmad.
Qed.

Lemma column_add_scalar (c : Q) (a : ndarray) (j : nat) :
  column j (rows (add_scalar a (Fin c))) = map (add_level c) (column j (rows a)).
Proof.
  unfold column, add_scalar. cbn [rows]. rewrite !map_map.
  apply map_ext. intro r.
  change (fun x => fadd x (Fin c)) with (add_level c).
  change NaN with (add_level c NaN) at 1. apply map_nth.
Qed.

Lemma add_scalar_well_shaped (c : float) (a : ndarray) :
  well_shaped a -> well_shaped (add_scalar a c).
Proof.
  unfold well_shaped, add_scalar. cbn [rows width]. intro Hw.
  apply Forall_forall. intros r Hr. apply in_map_iff in Hr.
  destruct Hr as [r0 [<- Hr0]]. rewrite length_map.
  rewrite Forall_forall in Hw. apply Hw. exact Hr0.
Qed.

Lemma median_of_add_scalar (c : Q) (a : ndarray) :
  Forall2 (fun m' m => feq m' (add_level c m))
          (median_of (add_scalar a (Fin c))) (median_of a).
Proof.
  unfold median_of, axis0. cbn [width add_scalar].
  induction (seq 0 (width a)) as [|j js IH]; cbn [map]; constructor.
  - change (mk_ndarray (width a) (map (map (fun x => fadd x (Fin c))) (rows a)))
      with (add_scalar a (Fin c)).
    rewrite column_add_scalar. apply np_median_shift.
  - exact IH.
Qed.

Lemma mad_sigma_of_add_scalar (c : Q) (a : ndarray) :
  Forall2 feq (mad_sigma_of (add_scalar a (Fin c))) (mad_sigma_of a).
Proof.
  unfold mad_sigma_of, axis0. cbn [width add_scalar].
  induction (seq 0 (width a)) as [|j js IH]; cbn [map]; constructor.
  - change (mk_ndarray (width a) (map (map (fun x => fadd x (Fin c))) (rows a)))
      with (add_scalar a (Fin c)).
    rewrite column_add_scalar. apply mad_std_shift.
  - exact IH.
Qed.


